(** * Peer-behaviour reporting (package p2p, peer_behaviour.go)

    A shallow embedding of the behaviour vocabulary, of the [PeerBehaviour]
    interface, of the implementation that forwards reports to the Switch
    ([SwitchPeerBehaviour]) and of the implementation that records them in
    memory ([StoredPeerBehaviour]), with the properties the specification
    states about them. *)

From Stdlib Require Import ZArith.
From stdpp Require Import gmap strings list fin_maps.

Local Open Scope Z_scope.

(* ===================================================================== *)
(** * Behaviour vocabulary *)
(* ===================================================================== *)

(** [type ErrorPeerBehaviour int] and [type GoodPeerBehaviour int]: both are
    Go's [int].  No arithmetic is ever done on a behaviour, so an [int] is
    its mathematical value. *)
Abbreviation ErrorPeerBehaviour := Z (only parsing).
Abbreviation GoodPeerBehaviour := Z (only parsing).

(** A [const ( ... )] block: the ConstSpec at index [i] evaluates the block's
    expression with [iota = i]; a ConstSpec without expression repeats the
    previous one. *)
Definition const_spec (expr : Z -> Z) (index : nat) : Z := expr (Z.of_nat index).

(** const ( ErrorPeerBehaviourUnknown = iota; ...BadMessage; ...MessageOutofOrder ) *)
Definition ErrorPeerBehaviourUnknown : ErrorPeerBehaviour :=
  const_spec (fun iota => iota) 0.
Definition ErrorPeerBehaviourBadMessage : ErrorPeerBehaviour :=
  const_spec (fun iota => iota) 1.
Definition ErrorPeerBehaviourMessageOutofOrder : ErrorPeerBehaviour :=
  const_spec (fun iota => iota) 2.

(** const ( GoodPeerBehaviourVote = iota + 100; GoodPeerBehaviourBlockPart ) *)
Definition GoodPeerBehaviourVote : GoodPeerBehaviour :=
  const_spec (fun iota => iota + 100) 0.
Definition GoodPeerBehaviourBlockPart : GoodPeerBehaviour :=
  const_spec (fun iota => iota + 100) 1.

Definition ErrorPeerBehaviour_consts : list ErrorPeerBehaviour :=
  [ErrorPeerBehaviourUnknown; ErrorPeerBehaviourBadMessage;
   ErrorPeerBehaviourMessageOutofOrder].

Definition GoodPeerBehaviour_consts : list GoodPeerBehaviour :=
  [GoodPeerBehaviourVote; GoodPeerBehaviourBlockPart].

(** Go's [error]: [nil] or an error carrying a message ([errors.New]). *)
Definition error : Type := option string.
Definition nil_error : error := None.
Definition errors_New (msg : string) : error := Some msg.

(* ===================================================================== *)
(** * Method sets and interface satisfaction *)
(* ===================================================================== *)

Module MethodSets.

(** The types that occur in the signatures of this file. *)
Inductive gotype : Type :=
| TID
| TErrorPeerBehaviour
| TGoodPeerBehaviour
| Terror
| TSliceOf (elem : gotype).

Record signature : Type := Sig { params : list gotype; results : list gotype }.

#[global] Instance gotype_eq_dec : EqDecision gotype.
Proof. solve_decision. Defined.
#[global] Instance signature_eq_dec : EqDecision signature.
Proof. solve_decision. Defined.

Definition method : Type := string * signature.
Definition method_set : Type := list method.

(** type PeerBehaviour interface { Behaved(...) error; Errored(...) error } *)
Definition PeerBehaviour : method_set :=
  [ ("Behaved", Sig [TID; TGoodPeerBehaviour] [Terror]);
    ("Errored", Sig [TID; TErrorPeerBehaviour] [Terror]) ].

(** type GettablePeerBehaviour interface { ... } *)
Definition GettablePeerBehaviour : method_set :=
  [ ("GetErrorBehaviours", Sig [TID] [TSliceOf TErrorPeerBehaviour]);
    ("GetGoodBehaviours", Sig [TID] [TSliceOf TGoodPeerBehaviour]) ].

(** The methods declared with receiver [*SwitchPeerBehaviour]. *)
Definition SwitchPeerBehaviour : method_set :=
  [ ("Errored", Sig [TID; TErrorPeerBehaviour] [Terror]);
    ("Behaved", Sig [TID; TGoodPeerBehaviour] [Terror]) ].

(** The methods declared with receiver [*StoredPeerBehaviour]: [Errored]
    and [Behaved] are declared without a result. *)
Definition StoredPeerBehaviour : method_set :=
  [ ("Errored", Sig [TID; TErrorPeerBehaviour] []);
    ("GetErrorBehaviours", Sig [TID] [TSliceOf TErrorPeerBehaviour]);
    ("Behaved", Sig [TID; TGoodPeerBehaviour] []);
    ("GetGoodBehaviours", Sig [TID] [TSliceOf TGoodPeerBehaviour]) ].

(** A type implements an interface when its method set has every method of
    the interface, with the same name and an identical signature. *)
Definition implements (T I : method_set) : bool :=
  forallb (fun m => bool_decide (m ∈ T)) I.

End MethodSets.

(** C8: the values of the good-behaviour constants (Vote, BlockPart) and of
    the error-behaviour constants (Unknown, BadMessage, MessageOutofOrder)
    are 100, 101 and 0, 1, 2: no value is shared between the two sets (nor
    inside one of them). *)
Theorem behaviour_consts_disjoint :
  ErrorPeerBehaviour_consts = [0; 1; 2] ∧
  GoodPeerBehaviour_consts = [100; 101] ∧
  Forall (fun g => g ∉ ErrorPeerBehaviour_consts) GoodPeerBehaviour_consts ∧
  NoDup (ErrorPeerBehaviour_consts ++ GoodPeerBehaviour_consts).
Proof.
  split; [reflexivity|]. split; [reflexivity|]. split.
  - unfold GoodPeerBehaviour_consts, ErrorPeerBehaviour_consts.
    repeat constructor; rewrite !elem_of_cons, elem_of_nil;
      cbv [const_spec GoodPeerBehaviourVote GoodPeerBehaviourBlockPart
           ErrorPeerBehaviourUnknown ErrorPeerBehaviourBadMessage
           ErrorPeerBehaviourMessageOutofOrder]; simpl; lia.
  - apply (bool_decide_unpack _). vm_compute. reflexivity.
Qed.

(** C4: [*SwitchPeerBehaviour] has both methods of [PeerBehaviour] with the
    interface's signatures; [*StoredPeerBehaviour] does not, since its
    [Errored] and [Behaved] are declared without the [error] result (it
    implements [GettablePeerBehaviour] only). *)
Theorem implements_PeerBehaviour :
  MethodSets.implements MethodSets.SwitchPeerBehaviour MethodSets.PeerBehaviour = true ∧
  MethodSets.implements MethodSets.StoredPeerBehaviour MethodSets.PeerBehaviour = false ∧
  MethodSets.implements MethodSets.StoredPeerBehaviour MethodSets.GettablePeerBehaviour = true.
Proof. repeat split; vm_compute; reflexivity. Qed.

(* ===================================================================== *)
(** * The implementation that reports to the Switch *)
(* ===================================================================== *)

Local Close Scope Z_scope.

Module Live.
Section WithSwitch.

(** [ID], the [Peer] handle and the [Switch] are declared elsewhere in the
    package: they are parameters here.  A [SwitchPeerBehaviour] has one
    field, the pointer [sw] to the Switch ([NewSwitchPeerBehaviour] sets
    it): its methods run against that Switch. *)
Context {ID Peer : Type}.

(** The calls a method of [*SwitchPeerBehaviour] makes on [spb.sw]. *)
Inductive call : Type :=
| Peers_Get (peerID : ID)
    (* spb.sw.Peers().Get(peerID) *)
| StopPeerForError (peer : Peer) (reason : ErrorPeerBehaviour)
    (* spb.sw.StopPeerForError(peer, reason) *)
| MarkPeerAsGood (peer : Peer).
    (* spb.sw.MarkPeerAsGood(peer) *)

(** What a call gives back: [Peers().Get] a peer or [nil] ([None]), the two
    others nothing. *)
Definition answer (c : call) : Type :=
  match c with
  | Peers_Get _ => option Peer
  | StopPeerForError _ _ => unit
  | MarkPeerAsGood _ => unit
  end.

(** A method body: it returns, or makes a call on the Switch and goes on
    with the answer. *)
Inductive prog (A : Type) : Type :=
| Return (a : A)
| Do (c : call) (k : answer c -> prog A).
Arguments Return {A} a.
Arguments Do {A} c k.

Fixpoint prog_bind {A B : Type} (f : A -> prog B) (m : prog A) : prog B :=
  match m with
  | Return a => f a
  | Do c k => Do c (fun x => prog_bind f (k x))
  end.

#[local] Instance prog_mret : MRet prog := @Return.
#[local] Instance prog_mbind : MBind prog := @prog_bind.

Definition perform (c : call) : prog (answer c) := Do c Return.

(** func (spb *SwitchPeerBehaviour) Errored(peerID ID, reason ErrorPeerBehaviour) error *)
Definition Errored (peerID : ID) (reason : ErrorPeerBehaviour) : prog error :=
  peer ← perform (Peers_Get peerID);
  match peer with
  | None => mret (errors_New "Peer not found")
  | Some peer =>
      perform (StopPeerForError peer reason);;
      mret nil_error
  end.

(** func (spb *SwitchPeerBehaviour) Behaved(peerID ID, reason GoodPeerBehaviour) error *)
Definition Behaved (peerID : ID) (reason : GoodPeerBehaviour) : prog error :=
  peer ← perform (Peers_Get peerID);
  match peer with
  | None => mret (errors_New "Peer not found")
  | Some peer =>
      perform (MarkPeerAsGood peer);;
      mret nil_error
  end.

(** The Switch behind [spb.sw]: any state with the three operations. *)
Class SwitchOps (Switch : Type) : Type := {
  sw_Peers_Get : Switch -> ID -> option Peer;
  sw_StopPeerForError : Switch -> Peer -> ErrorPeerBehaviour -> Switch;
  sw_MarkPeerAsGood : Switch -> Peer -> Switch
}.

Context {Switch : Type} `{!SwitchOps Switch}.

Definition serve (c : call) (sw : Switch) : answer c * Switch :=
  match c with
  | Peers_Get peerID => (sw_Peers_Get sw peerID, sw)
  | StopPeerForError peer reason => (tt, sw_StopPeerForError sw peer reason)
  | MarkPeerAsGood peer => (tt, sw_MarkPeerAsGood sw peer)
  end.

(** Running a method against a Switch: the value returned, the Switch
    afterwards, and the calls made on it, in order. *)
Fixpoint run {A : Type} (m : prog A) (sw : Switch) : A * Switch * list call :=
  match m with
  | Return a => (a, sw, [])
  | Do c k =>
      let '(x, sw1) := serve c sw in
      let '(a, sw2, calls) := run (k x) sw1 in
      (a, sw2, c :: calls)
  end.

Definition is_StopPeerForError (c : call) : bool :=
  match c with StopPeerForError _ _ => true | _ => false end.
Definition is_MarkPeerAsGood (c : call) : bool :=
  match c with MarkPeerAsGood _ => true | _ => false end.

(** C2: for a peer the Switch knows, Errored makes exactly one
    StopPeerForError call, with the reported reason as its cause, and no
    MarkPeerAsGood call, and returns nil; Behaved makes exactly one
    MarkPeerAsGood call, and no StopPeerForError call, and returns nil. *)
Theorem known_peer_reported (sw : Switch) (p : ID) (peer : Peer)
    (e : ErrorPeerBehaviour) (g : GoodPeerBehaviour) :
  sw_Peers_Get sw p = Some peer ->
  (run (Errored p e) sw =
     (nil_error, sw_StopPeerForError sw peer e,
      [Peers_Get p; StopPeerForError peer e]) ∧
   filter is_StopPeerForError (run (Errored p e) sw).2 = [StopPeerForError peer e] ∧
   filter is_MarkPeerAsGood (run (Errored p e) sw).2 = []) ∧
  (run (Behaved p g) sw =
     (nil_error, sw_MarkPeerAsGood sw peer, [Peers_Get p; MarkPeerAsGood peer]) ∧
   filter is_MarkPeerAsGood (run (Behaved p g) sw).2 = [MarkPeerAsGood peer] ∧
   filter is_StopPeerForError (run (Behaved p g) sw).2 = []).
Proof.
  intros Hget. unfold Errored, Behaved. simpl. rewrite Hget. simpl.
  repeat split; reflexivity.
Qed.

(** C3: for a peer the Switch does not know, Errored and Behaved return the
    error "Peer not found", the only call made is the lookup (no
    StopPeerForError, no MarkPeerAsGood), and the Switch is left as it
    was. *)
Theorem unknown_peer_not_found (sw : Switch) (p : ID)
    (e : ErrorPeerBehaviour) (g : GoodPeerBehaviour) :
  sw_Peers_Get sw p = None ->
  run (Errored p e) sw = (errors_New "Peer not found", sw, [Peers_Get p]) ∧
  run (Behaved p g) sw = (errors_New "Peer not found", sw, [Peers_Get p]) ∧
  (run (Errored p e) sw).1.1 ≠ nil_error ∧
  (run (Behaved p g) sw).1.1 ≠ nil_error ∧
  Forall (fun c => is_StopPeerForError c = false ∧ is_MarkPeerAsGood c = false)
         ((run (Errored p e) sw).2 ++ (run (Behaved p g) sw).2).
Proof.
  intros Hget. unfold Errored, Behaved. simpl. rewrite Hget. simpl.
  repeat split; try reflexivity; try discriminate.
  repeat constructor.
Qed.

(** ** Further properties of the two methods *)

Definition is_Peers_Get (c : call) : bool :=
  match c with Peers_Get _ => true | _ => false end.

(** Two reports one after the other, with both results. *)
Definition Errored_twice (peerID : ID) (reason1 reason2 : ErrorPeerBehaviour) :
    prog (error * error) :=
  err1 ← Errored peerID reason1;
  err2 ← Errored peerID reason2;
  mret (err1, err2).

Lemma run_bind {A B : Type} (m : prog A) (f : A -> prog B) (sw : Switch) :
  run (m ≫= f) sw =
    let '(a, sw1, calls1) := run m sw in
    let '(b, sw2, calls2) := run (f a) sw1 in
    (b, sw2, calls1 ++ calls2).
Proof.
  revert sw. induction m as [a|c k IH]; intros sw.
  - change (run (Return a ≫= f) sw) with (run (f a) sw). simpl.
    by destruct (run (f a) sw) as [[b sw2] calls2].
  - change (run (Do c k ≫= f) sw) with (run (Do c (fun x => k x ≫= f)) sw).
    simpl. destruct (serve c sw) as [x sw1]. rewrite IH.
    destruct (run (k x) sw1) as [[a sw2] calls1].
    by destruct (run (f a) sw2) as [[b sw3] calls2].
Qed.

(** X1: Errored and Behaved return nil exactly when the Switch has the
    peer, and the only error they ever return is "Peer not found". *)
Theorem report_nil_iff_peer_found (sw : Switch) (p : ID)
    (e : ErrorPeerBehaviour) (g : GoodPeerBehaviour) :
  ((run (Errored p e) sw).1.1 = nil_error ↔ is_Some (sw_Peers_Get sw p)) ∧
  ((run (Behaved p g) sw).1.1 = nil_error ↔ is_Some (sw_Peers_Get sw p)) ∧
  ((run (Errored p e) sw).1.1 = errors_New "Peer not found" ↔ sw_Peers_Get sw p = None) ∧
  ((run (Behaved p g) sw).1.1 = errors_New "Peer not found" ↔ sw_Peers_Get sw p = None).
Proof.
  unfold Errored, Behaved. simpl.
  destruct (sw_Peers_Get sw p) as [peer|]; simpl.
  - split_and!; split; intros; try done; by eexists.
  - split_and!; split; intros; try done;
      by match goal with X : is_Some None |- _ => destruct X end.
Qed.

(** X2: whatever the Switch holds, a report looks the peer up once, before
    anything else, and makes at most one more call; Errored never marks a
    peer as good and Behaved never stops one; the peer stopped or marked is
    the one the lookup gave for the reported identity, and the cause of a
    stop is the reported reason. *)
Theorem report_call_discipline (sw : Switch) (p : ID)
    (e : ErrorPeerBehaviour) (g : GoodPeerBehaviour) :
  head (run (Errored p e) sw).2 = Some (Peers_Get p) ∧
  head (run (Behaved p g) sw).2 = Some (Peers_Get p) ∧
  filter is_Peers_Get (run (Errored p e) sw).2 = [Peers_Get p] ∧
  filter is_Peers_Get (run (Behaved p g) sw).2 = [Peers_Get p] ∧
  length (run (Errored p e) sw).2 ≤ 2 ∧
  length (run (Behaved p g) sw).2 ≤ 2 ∧
  filter is_MarkPeerAsGood (run (Errored p e) sw).2 = [] ∧
  filter is_StopPeerForError (run (Behaved p g) sw).2 = [] ∧
  (∀ peer r, StopPeerForError peer r ∈ (run (Errored p e) sw).2 ->
     sw_Peers_Get sw p = Some peer ∧ r = e) ∧
  (∀ peer, MarkPeerAsGood peer ∈ (run (Behaved p g) sw).2 ->
     sw_Peers_Get sw p = Some peer).
Proof.
  unfold Errored, Behaved. simpl.
  destruct (sw_Peers_Get sw p) as [peer|]; simpl.
  - split_and!; try done; try lia.
    + intros peer' r Hin. apply elem_of_cons in Hin as [?|Hin]; [done|].
      apply list_elem_of_singleton in Hin. by injection Hin as -> ->.
    + intros peer' Hin. apply elem_of_cons in Hin as [?|Hin]; [done|].
      apply list_elem_of_singleton in Hin. by injection Hin as ->.
  - split_and!; try done; try lia.
    + intros peer' r Hin. by apply list_elem_of_singleton in Hin.
    + intros peer' Hin. by apply list_elem_of_singleton in Hin.
Qed.

(** X3: the reason of a Behaved report never reaches the Switch: two
    Behaved reports about a peer that differ in the reason only make the
    same calls, return the same and leave the same Switch.  The reason of an
    Errored report about a peer the Switch has does reach it: different
    reasons give different calls. *)
Theorem reason_reaches_switch_only_on_error (sw : Switch) (p : ID) :
  (∀ g1 g2 : GoodPeerBehaviour, run (Behaved p g1) sw = run (Behaved p g2) sw) ∧
  (∀ e1 e2 : ErrorPeerBehaviour,
     is_Some (sw_Peers_Get sw p) ->
     (run (Errored p e1) sw).2 = (run (Errored p e2) sw).2 -> e1 = e2).
Proof.
  split; [done|]. intros e1 e2 [peer Hget]. unfold Errored. simpl.
  rewrite Hget. simpl. by intros [= ->].
Qed.

(** X4: a SwitchPeerBehaviour remembers nothing: each report looks the peer
    up again.  When a stop makes the Switch drop the peer, a second Errored
    report about it returns "Peer not found" and stops nothing; when the
    Switch still has the peer, the second report stops it again. *)
Theorem second_report_after_stop (sw : Switch) (p : ID) (peer : Peer)
    (e1 e2 : ErrorPeerBehaviour) :
  sw_Peers_Get sw p = Some peer ->
  (sw_Peers_Get (sw_StopPeerForError sw peer e1) p = None ->
     run (Errored_twice p e1 e2) sw =
       ((nil_error, errors_New "Peer not found"),
        sw_StopPeerForError sw peer e1,
        [Peers_Get p; StopPeerForError peer e1; Peers_Get p])) ∧
  (∀ peer', sw_Peers_Get (sw_StopPeerForError sw peer e1) p = Some peer' ->
     run (Errored_twice p e1 e2) sw =
       ((nil_error, nil_error),
        sw_StopPeerForError (sw_StopPeerForError sw peer e1) peer' e2,
        [Peers_Get p; StopPeerForError peer e1;
         Peers_Get p; StopPeerForError peer' e2])).
Proof.
  intros Hget.
  assert (Hfirst : run (Errored p e1) sw =
            (nil_error, sw_StopPeerForError sw peer e1,
             [Peers_Get p; StopPeerForError peer e1])).
  { unfold Errored. simpl. by rewrite Hget. }
  split.
  - intros Hgone. unfold Errored_twice. rewrite run_bind, Hfirst.
    rewrite run_bind. unfold Errored at 1. simpl. by rewrite Hgone.
  - intros peer' Hstill. unfold Errored_twice. rewrite run_bind, Hfirst.
    rewrite run_bind. unfold Errored at 1. simpl. by rewrite Hstill.
Qed.

End WithSwitch.

Arguments Return {ID Peer A} a.
Arguments Do {ID Peer A} c k.

(** ** The theorems at concrete inputs *)

(** A Switch that has a list of connected peers and keeps what it is asked:
    a stopped peer leaves the list. *)
Record sample_switch : Type := SampleSwitch {
  connected : list string;
  stopped : list (string * ErrorPeerBehaviour);
  marked_good : list string
}.

#[global] Instance sample_switch_ops :
  SwitchOps (ID := string) (Peer := string) sample_switch := {|
  sw_Peers_Get sw peerID :=
    if decide (peerID ∈ connected sw) then Some peerID else None;
  sw_StopPeerForError sw peer reason :=
    SampleSwitch (filter (fun q => q ≠ peer) (connected sw))
                 ((peer, reason) :: stopped sw) (marked_good sw);
  sw_MarkPeerAsGood sw peer :=
    SampleSwitch (connected sw) (stopped sw) (peer :: marked_good sw)
|}.

Definition sample_sw : sample_switch := SampleSwitch ["p1"; "p2"] [] [].

Lemma known_peer_reported_witness :
  sw_Peers_Get sample_sw "p1" = Some "p1" ∧
  run (Errored "p1" ErrorPeerBehaviourBadMessage) sample_sw =
    (nil_error, SampleSwitch ["p2"] [("p1", ErrorPeerBehaviourBadMessage)] [],
     [Peers_Get "p1"; StopPeerForError "p1" ErrorPeerBehaviourBadMessage]) ∧
  run (Behaved "p1" GoodPeerBehaviourVote) sample_sw =
    (nil_error, SampleSwitch ["p1"; "p2"] [] ["p1"],
     [Peers_Get "p1"; MarkPeerAsGood "p1"]).
Proof.
  assert (sw_Peers_Get sample_sw "p1" = Some "p1") as Hget
    by (vm_compute; reflexivity).
  split; [exact Hget|].
  destruct (known_peer_reported sample_sw "p1" "p1" ErrorPeerBehaviourBadMessage
              GoodPeerBehaviourVote Hget) as [(HE & _) (HB & _)].
  split; [rewrite HE|rewrite HB]; vm_compute; reflexivity.
Defined.

Lemma unknown_peer_not_found_witness :
  sw_Peers_Get sample_sw "p3" = None ∧
  run (Errored "p3" ErrorPeerBehaviourBadMessage) sample_sw =
    (errors_New "Peer not found", sample_sw, [Peers_Get "p3"]) ∧
  run (Behaved "p3" GoodPeerBehaviourVote) sample_sw =
    (errors_New "Peer not found", sample_sw, [Peers_Get "p3"]).
Proof.
  assert (sw_Peers_Get sample_sw "p3" = None) as Hget
    by (vm_compute; reflexivity).
  split; [exact Hget|].
  destruct (unknown_peer_not_found sample_sw "p3" ErrorPeerBehaviourBadMessage
              GoodPeerBehaviourVote Hget) as (HE & HB & _).
  split; [exact HE|exact HB].
Defined.

(** A Switch that keeps a stopped peer connected and counts the stops. *)
Record keeping_switch : Type := KeepingSwitch {
  keeping_peers : list string;
  stops : nat
}.

#[global] Instance keeping_switch_ops :
  SwitchOps (ID := string) (Peer := string) keeping_switch := {|
  sw_Peers_Get sw peerID :=
    if decide (peerID ∈ keeping_peers sw) then Some peerID else None;
  sw_StopPeerForError sw peer reason :=
    KeepingSwitch (keeping_peers sw) (S (stops sw));
  sw_MarkPeerAsGood sw peer := sw
|}.

Lemma second_report_after_stop_witness :
  sw_Peers_Get sample_sw "p1" = Some "p1" ∧
  sw_Peers_Get (sw_StopPeerForError sample_sw "p1" ErrorPeerBehaviourBadMessage) "p1"
    = None ∧
  run (Errored_twice "p1" ErrorPeerBehaviourBadMessage
         ErrorPeerBehaviourMessageOutofOrder) sample_sw =
    ((nil_error, errors_New "Peer not found"),
     SampleSwitch ["p2"] [("p1", ErrorPeerBehaviourBadMessage)] [],
     [Peers_Get "p1"; StopPeerForError "p1" ErrorPeerBehaviourBadMessage;
      Peers_Get "p1"]) ∧
  run (Errored_twice "p1" ErrorPeerBehaviourBadMessage
         ErrorPeerBehaviourMessageOutofOrder) (KeepingSwitch ["p1"] 0) =
    ((nil_error, nil_error), KeepingSwitch ["p1"] 2,
     [Peers_Get "p1"; StopPeerForError "p1" ErrorPeerBehaviourBadMessage;
      Peers_Get "p1"; StopPeerForError "p1" ErrorPeerBehaviourMessageOutofOrder]).
Proof.
  assert (sw_Peers_Get sample_sw "p1" = Some "p1") as Hget
    by (vm_compute; reflexivity).
  assert (sw_Peers_Get (sw_StopPeerForError sample_sw "p1" ErrorPeerBehaviourBadMessage)
            "p1" = None) as Hgone by (vm_compute; reflexivity).
  split; [exact Hget|]. split; [exact Hgone|]. split.
  - destruct (second_report_after_stop sample_sw "p1" "p1" ErrorPeerBehaviourBadMessage
                ErrorPeerBehaviourMessageOutofOrder Hget) as [Hdrop _].
    rewrite (Hdrop Hgone). vm_compute. reflexivity.
  - assert (sw_Peers_Get (KeepingSwitch ["p1"] 0) "p1" = Some "p1") as Hget2
      by (vm_compute; reflexivity).
    destruct (second_report_after_stop (KeepingSwitch ["p1"] 0) "p1" "p1"
                ErrorPeerBehaviourBadMessage ErrorPeerBehaviourMessageOutofOrder Hget2)
      as [_ Hkeep].
    rewrite (Hkeep "p1"); vm_compute; reflexivity.
Defined.

End Live.

(* ===================================================================== *)
(** * The implementation that records reports in memory *)
(* ===================================================================== *)

Module Recording.
Section WithID.

(** [ID] is declared elsewhere in the package; it is a map key, so it has a
    decidable equality (and is countable, as every Go key type is). *)
Context {ID : Type} `{Countable ID}.

(** How much capacity beyond the required one the runtime gives a slice
    that [append] has to reallocate, from the old capacity and the required
    length.  The policy is the runtime's: any function will do. *)
Variable growslice_extra : nat -> nat -> nat.

(** ** Memory: backing arrays and slices *)

Abbreviation addr := positive (only parsing).

(** A slice value: pointer to the backing array ([None] for the nil slice),
    length and capacity.  No slice of this file is ever re-sliced, so a
    slice starts at index 0 of its array. *)
Record slice : Type := Slice { ptr : option addr; len : nat; cap : nat }.

Definition nil_slice : slice := Slice None 0 0.

(** [sync.RWMutex], as the calls of one goroutine after the other see it. *)
Record RWMutex : Type := Mutex { writer : bool; readers : nat }.

Definition unlocked : RWMutex := Mutex false 0.

(** type StoredPeerBehaviour struct { eb; gb; mtx }.  A map field is [None]
    when it is the nil map. *)
Record StoredPeerBehaviour := Stored {
  eb : option (gmap ID slice);
  gb : option (gmap ID slice);
  mtx : RWMutex
}.

(** The memory a method runs in: the backing arrays of all slices, and the
    struct its receiver [spb] points to. *)
Record world := World {
  heap : gmap addr (list Z);
  spb : StoredPeerBehaviour
}.

Definition set_heap (h : gmap addr (list Z)) (w : world) : world :=
  World h (spb w).
Definition set_eb (m : option (gmap ID slice)) (w : world) : world :=
  World (heap w) (Stored m (gb (spb w)) (mtx (spb w))).
Definition set_gb (m : option (gmap ID slice)) (w : world) : world :=
  World (heap w) (Stored (eb (spb w)) m (mtx (spb w))).
Definition set_mtx (m : RWMutex) (w : world) : world :=
  World (heap w) (Stored (eb (spb w)) (gb (spb w)) m).

(** ** Method bodies *)

(** A call returns a value in a new memory, panics, or waits for ever. *)
Inductive outcome (A : Type) : Type :=
| Returns (a : A) (w : world)
| Panics (msg : string)
| Blocks.
Arguments Returns {A} a w.
Arguments Panics {A} msg.
Arguments Blocks {A}.

Definition M (A : Type) : Type := world -> outcome A.

Definition ret {A : Type} (a : A) : M A := fun w => Returns a w.

Definition bind {A B : Type} (m : M A) (f : A -> M B) : M B := fun w =>
  match m w with
  | Returns a w' => f a w'
  | Panics msg => Panics msg
  | Blocks => Blocks
  end.

Declare Scope M_scope.
Delimit Scope M_scope with M.
Notation "x ← y ; z" := (bind y (fun x => z))
  (at level 20, y at level 100, z at level 200, only parsing) : M_scope.
Notation "x ;; z" := (bind x (fun _ => z))
  (at level 100, z at level 200, only parsing, right associativity) : M_scope.
Local Open Scope M_scope.

(** [defer d] before a body: [d] runs when the body returns.  (When the
    body panics, the panic goes on after [d]: the call panics.) *)
Definition defer {A : Type} (d : M unit) (body : M A) : M A :=
  a ← body; d;; ret a.

(** *** sync.RWMutex *)

Definition Lock : M unit := fun w =>
  let m := mtx (spb w) in
  if writer m || negb (readers m =? 0) then Blocks
  else Returns tt (set_mtx (Mutex true (readers m)) w).

Definition Unlock : M unit := fun w =>
  let m := mtx (spb w) in
  if writer m then Returns tt (set_mtx (Mutex false (readers m)) w)
  else Panics "sync: Unlock of unlocked RWMutex".

Definition RLock : M unit := fun w =>
  let m := mtx (spb w) in
  if writer m then Blocks
  else Returns tt (set_mtx (Mutex false (S (readers m))) w).

Definition RUnlock : M unit := fun w =>
  let m := mtx (spb w) in
  match readers m with
  | O => Panics "sync: RUnlock of unlocked RWMutex"
  | S n => Returns tt (set_mtx (Mutex (writer m) n) w)
  end.

(** *** Slices *)

(** The elements [s[0], ..., s[len(s)-1]] of a slice, read from memory. *)
Definition slice_elems (h : gmap addr (list Z)) (s : slice) : option (list Z) :=
  match ptr s with
  | None => if decide (len s = 0) then Some [] else None
  | Some a =>
      match h !! a with
      | Some arr => if decide (len s ≤ length arr) then Some (take (len s) arr) else None
      | None => None
      end
  end.

(** A new backing array, at an address not in use. *)
Definition alloc (arr : list Z) : M addr := fun w =>
  let a := fresh (dom (heap w)) in
  Returns a (set_heap (<[a := arr]> (heap w)) w).

(** make([]T, n): a new zeroed array of n elements. *)
Definition make (n : nat) : M slice :=
  a ← alloc (replicate n 0%Z);
  ret (Slice (Some a) n n).

(** []T{x1, ..., xn}: a new array holding the elements. *)
Definition slice_lit (xs : list Z) : M slice :=
  a ← alloc xs;
  ret (Slice (Some a) (length xs) (length xs)).

(** copy(dst, src): the first min(len(dst), len(src)) elements of src
    overwrite those of dst; returns their number. *)
Definition copy (dst src : slice) : M nat := fun w =>
  let n := min (len dst) (len src) in
  match ptr dst with
  | None => if decide (n = 0) then Returns 0 w else Panics "invalid memory address"
  | Some a =>
      match heap w !! a, slice_elems (heap w) src with
      | Some arr, Some xs =>
          if decide (n ≤ length arr)
          then Returns n (set_heap (<[a := take n xs ++ drop n arr]> (heap w)) w)
          else Panics "invalid memory address"
      | _, _ => Panics "invalid memory address"
      end
  end.

(** append(s, x): with room left in the backing array, x is written in
    place, behind the last element; otherwise the elements move to a new,
    larger array. *)
Definition append (s : slice) (x : Z) : M slice := fun w =>
  if decide (len s < cap s) then
    match ptr s with
    | Some a =>
        match heap w !! a with
        | Some arr =>
            if decide (len s < length arr)
            then Returns (Slice (Some a) (S (len s)) (cap s))
                         (set_heap (<[a := <[len s := x]> arr]> (heap w)) w)
            else Panics "invalid memory address"
        | None => Panics "invalid memory address"
        end
    | None => Panics "invalid memory address"
    end
  else
    match slice_elems (heap w) s with
    | Some xs =>
        let extra := growslice_extra (cap s) (S (len s)) in
        (a ← alloc (xs ++ x :: replicate extra 0%Z);
         ret (Slice (Some a) (S (len s)) (S (len s) + extra))) w
    | None => Panics "invalid memory address"
    end.

(** s[i] = v *)
Definition index_assign (s : slice) (i : nat) (v : Z) : M unit := fun w =>
  if decide (i < len s) then
    match ptr s with
    | Some a =>
        match heap w !! a with
        | Some arr =>
            if decide (i < length arr)
            then Returns tt (set_heap (<[a := <[i := v]> arr]> (heap w)) w)
            else Panics "invalid memory address"
        | None => Panics "invalid memory address"
        end
    | None => Panics "invalid memory address"
    end
  else Panics "index out of range".

(** *** Maps *)

(** v, ok := m[k]; reading the nil map is reading an empty one. *)
Definition map_index (m : option (gmap ID slice)) (k : ID) : slice * bool :=
  match m with
  | Some g => match g !! k with Some v => (v, true) | None => (nil_slice, false) end
  | None => (nil_slice, false)
  end.

Definition read_eb : M (option (gmap ID slice)) := fun w => Returns (eb (spb w)) w.
Definition read_gb : M (option (gmap ID slice)) := fun w => Returns (gb (spb w)) w.

(** spb.eb[k] = v; an assignment to an entry of the nil map panics. *)
Definition assign_eb (k : ID) (v : slice) : M unit := fun w =>
  match eb (spb w) with
  | Some g => Returns tt (set_eb (Some (<[k := v]> g)) w)
  | None => Panics "assignment to entry in nil map"
  end.

(** spb.gb[k] = v *)
Definition assign_gb (k : ID) (v : slice) : M unit := fun w =>
  match gb (spb w) with
  | Some g => Returns tt (set_gb (Some (<[k := v]> g)) w)
  | None => Panics "assignment to entry in nil map"
  end.

(** ** The methods of [*StoredPeerBehaviour] *)

(** func NewStoredPeerBehaviour() *StoredPeerBehaviour: both maps empty (not
    nil), the mutex at its zero value; the memory is what it was. *)
Definition NewStoredPeerBehaviour (h : gmap addr (list Z)) : world :=
  World h (Stored (Some ∅) (Some ∅) unlocked).

(** func (spb *StoredPeerBehaviour) Errored(peerID ID, reason ErrorPeerBehaviour) *)
Definition Errored (peerID : ID) (reason : ErrorPeerBehaviour) : M unit :=
  Lock;;
  defer Unlock (
    m ← read_eb;
    if negb (map_index m peerID).2 then
      s ← slice_lit [reason];
      assign_eb peerID s
    else
      m ← read_eb;
      s ← append (map_index m peerID).1 reason;
      assign_eb peerID s).

(** func (spb *StoredPeerBehaviour) GetErrorBehaviours(peerID ID) []ErrorPeerBehaviour *)
Definition GetErrorBehaviours (peerID : ID) : M slice :=
  RLock;;
  defer RUnlock (
    m ← read_eb;
    let '(items, ok) := map_index m peerID in
    if ok then
      result ← make (len items);
      copy result items;;
      ret result
    else
      slice_lit []).

(** func (spb *StoredPeerBehaviour) Behaved(peerID ID, reason GoodPeerBehaviour) *)
Definition Behaved (peerID : ID) (reason : GoodPeerBehaviour) : M unit :=
  Lock;;
  defer Unlock (
    m ← read_gb;
    if negb (map_index m peerID).2 then
      s ← slice_lit [reason];
      assign_gb peerID s
    else
      m ← read_gb;
      s ← append (map_index m peerID).1 reason;
      assign_gb peerID s).

(** func (spb *StoredPeerBehaviour) GetGoodBehaviours(peerID ID) []GoodPeerBehaviour *)
Definition GetGoodBehaviours (peerID : ID) : M slice :=
  RLock;;
  defer RUnlock (
    m ← read_gb;
    let '(items, ok) := map_index m peerID in
    if ok then
      result ← make (len items);
      copy result items;;
      ret result
    else
      slice_lit []).

(** ** The two logs, seen as one *)

(** [Errored] and [GetErrorBehaviours] are to [spb.eb] what [Behaved] and
    [GetGoodBehaviours] are to [spb.gb]. *)
Inductive kind : Type := KError | KGood.

#[global] Instance kind_eq_dec : EqDecision kind.
Proof. solve_decision. Defined.

Definition field (k : kind) (o : StoredPeerBehaviour) : option (gmap ID slice) :=
  match k with KError => eb o | KGood => gb o end.

Definition read_field (k : kind) : M (option (gmap ID slice)) :=
  match k with KError => read_eb | KGood => read_gb end.

Definition assign_field (k : kind) : ID -> slice -> M unit :=
  match k with KError => assign_eb | KGood => assign_gb end.

Definition report (k : kind) (peerID : ID) (reason : Z) : M unit :=
  Lock;;
  defer Unlock (
    m ← read_field k;
    if negb (map_index m peerID).2 then
      s ← slice_lit [reason];
      assign_field k peerID s
    else
      m ← read_field k;
      s ← append (map_index m peerID).1 reason;
      assign_field k peerID s).

Definition get (k : kind) (peerID : ID) : M slice :=
  RLock;;
  defer RUnlock (
    m ← read_field k;
    let '(items, ok) := map_index m peerID in
    if ok then
      result ← make (len items);
      copy result items;;
      ret result
    else
      slice_lit []).

(** The slice stored for a peer, if any. *)
Definition stored (o : StoredPeerBehaviour) (k : kind) (p : ID) : option slice :=
  match field k o with Some g => g !! p | None => None end.

(** What is recorded for a peer: the elements of its stored slice, nothing
    when the map has no entry for it. *)
Definition log (k : kind) (w : world) (p : ID) : list Z :=
  match stored (spb w) k p with
  | Some s => default [] (slice_elems (heap w) s)
  | None => []
  end.

(** The struct with the map [k] replaced. *)
Definition with_field (k : kind) (m : option (gmap ID slice))
    (o : StoredPeerBehaviour) : StoredPeerBehaviour :=
  match k with
  | KError => Stored m (gb o) (mtx o)
  | KGood => Stored (eb o) m (mtx o)
  end.

(** ** The state of a [StoredPeerBehaviour] between two calls *)

(** A stored slice points to an array of its capacity. *)
Definition slice_ok (h : gmap addr (list Z)) (s : slice) : Prop :=
  match ptr s with
  | Some a =>
      match h !! a with
      | Some arr => length arr = cap s ∧ len s ≤ cap s
      | None => False
      end
  | None => False
  end.

(** Both maps are made, the mutex is free, every stored slice has its
    array, and no two entries share one. *)
Definition wf (w : world) : Prop :=
  mtx (spb w) = unlocked ∧
  is_Some (eb (spb w)) ∧
  is_Some (gb (spb w)) ∧
  (∀ k p s, stored (spb w) k p = Some s -> slice_ok (heap w) s) ∧
  (∀ k1 p1 s1 k2 p2 s2,
      stored (spb w) k1 p1 = Some s1 -> stored (spb w) k2 p2 = Some s2 ->
      ptr s1 = ptr s2 -> k1 = k2 ∧ p1 = p2).

(** The memories [h] and [h'] hold the same array for every stored slice. *)
Definition agree_on_stored (o : StoredPeerBehaviour) (h h' : gmap addr (list Z)) : Prop :=
  ∀ k p s a, stored o k p = Some s -> ptr s = Some a -> h' !! a = h !! a.

(** The entries of both maps, and [wf] as a check over them. *)
Definition entries (o : StoredPeerBehaviour) : list (kind * ID * slice) :=
  ((fun e => (KError, e.1, e.2)) <$> map_to_list (default ∅ (eb o))) ++
  ((fun e => (KGood, e.1, e.2)) <$> map_to_list (default ∅ (gb o))).

Definition wf_check (w : world) : Prop :=
  mtx (spb w) = unlocked ∧
  is_Some (eb (spb w)) ∧
  is_Some (gb (spb w)) ∧
  Forall (fun e => slice_ok (heap w) e.2) (entries (spb w)) ∧
  Forall (fun e1 =>
    Forall (fun e2 => ptr e1.2 = ptr e2.2 -> e1.1.1 = e2.1.1 ∧ e1.1.2 = e2.1.2)
           (entries (spb w)))
    (entries (spb w)).

(** ** Sequences of calls *)

(** A report: a call of [Errored] or of [Behaved]. *)
Inductive report_call : Type :=
| CallErrored (peerID : ID) (reason : ErrorPeerBehaviour)
| CallBehaved (peerID : ID) (reason : GoodPeerBehaviour).

Definition do_report (c : report_call) : M unit :=
  match c with
  | CallErrored p r => Errored p r
  | CallBehaved p r => Behaved p r
  end.

Fixpoint do_reports (cs : list report_call) : M unit :=
  match cs with
  | [] => ret tt
  | c :: cs => do_report c;; do_reports cs
  end.

(** The reasons of the [Errored] (of the [Behaved]) reports about [p] in a
    sequence of reports, in the order of the sequence. *)
Fixpoint errors_of (p : ID) (cs : list report_call) : list ErrorPeerBehaviour :=
  match cs with
  | [] => []
  | CallErrored q r :: cs => if decide (q = p) then r :: errors_of p cs else errors_of p cs
  | CallBehaved _ _ :: cs => errors_of p cs
  end.

Fixpoint goods_of (p : ID) (cs : list report_call) : list GoodPeerBehaviour :=
  match cs with
  | [] => []
  | CallBehaved q r :: cs => if decide (q = p) then r :: goods_of p cs else goods_of p cs
  | CallErrored _ _ :: cs => goods_of p cs
  end.

(** A read: a call of [GetErrorBehaviours] or of [GetGoodBehaviours], whose
    result is dropped. *)
Inductive get_call : Type :=
| CallGetErrorBehaviours (peerID : ID)
| CallGetGoodBehaviours (peerID : ID).

Definition do_get (c : get_call) : M slice :=
  match c with
  | CallGetErrorBehaviours p => GetErrorBehaviours p
  | CallGetGoodBehaviours p => GetGoodBehaviours p
  end.

Fixpoint do_gets (cs : list get_call) : M unit :=
  match cs with
  | [] => ret tt
  | c :: cs => do_get c;; do_gets cs
  end.

(** What a caller can do to a slice it holds: assign an element, or append
    to it and go on with the result. *)
Inductive mutation : Type :=
| SetIndex (i : nat) (v : Z)     (* s[i] = v *)
| AppendTo (v : Z).              (* s = append(s, v) *)

Definition mutate1 (m : mutation) (s : slice) : M slice :=
  match m with
  | SetIndex i v => index_assign s i v;; ret s
  | AppendTo v => append s v
  end.

Fixpoint mutate (ms : list mutation) (s : slice) : M slice :=
  match ms with
  | [] => ret s
  | m :: ms => s' ← mutate1 m s; mutate ms s'
  end.

(** A caller of the struct: it reports, it reads and keeps the slice
    returned, or it changes one of the slices it keeps (the [n]-th, the
    last one kept first) and keeps the result. *)
Inductive action : Type :=
| Report (c : report_call)
| Get (c : get_call)
| Mutate (n : nat) (m : mutation).

Fixpoint run_actions (acts : list action) (kept : list slice) : M (list slice) :=
  match acts with
  | [] => ret kept
  | Report c :: acts => do_report c;; run_actions acts kept
  | Get c :: acts => s ← do_get c; run_actions acts (s :: kept)
  | Mutate n m :: acts =>
      match kept !! n with
      | Some s => s' ← mutate1 m s; run_actions acts (s' :: kept)
      | None => run_actions acts kept
      end
  end.

Fixpoint reports_of (acts : list action) : list report_call :=
  match acts with
  | [] => []
  | Report c :: acts => c :: reports_of acts
  | _ :: acts => reports_of acts
  end.

(** A slice the caller keeps: it has its array, and no stored slice points
    to that array. *)
Definition kept_ok (w : world) (s : slice) : Prop :=
  slice_ok (heap w) s ∧
  ∀ k p s2, stored (spb w) k p = Some s2 -> ptr s2 ≠ ptr s.

(** The elements of the slice a call returns, read in the memory it
    returns. *)
Definition returned_elems (r : outcome slice) : option (list Z) :=
  match r with
  | Returns s w => slice_elems (heap w) s
  | _ => None
  end.

(** A call returns an empty slice that is not nil. *)
Definition returns_empty (r : outcome slice) : Prop :=
  ∃ s w, r = Returns s w ∧ is_Some (ptr s) ∧ len s = 0 ∧
         slice_elems (heap w) s = Some [].

(** ** The written-out methods are the two instances of the generic ones *)

Lemma Errored_report p r : Errored p r = report KError p r.
Proof. reflexivity. Qed.

Lemma Behaved_report p r : Behaved p r = report KGood p r.
Proof. reflexivity. Qed.

Lemma GetErrorBehaviours_get p : GetErrorBehaviours p = get KError p.
Proof. reflexivity. Qed.

Lemma GetGoodBehaviours_get p : GetGoodBehaviours p = get KGood p.
Proof. reflexivity. Qed.

(** ** [wf] is decidable *)

Lemma elem_of_entries o k p s :
  (k, p, s) ∈ entries o ↔ stored o k p = Some s.
Proof.
  unfold entries, stored. rewrite elem_of_app, !list_elem_of_fmap. split.
  - intros [[[q t] [E Hin]]|[[q t] [E Hin]]]; simpl in E; inversion E; subst;
      apply elem_of_map_to_list in Hin; simpl;
      [destruct (eb o)|destruct (gb o)]; simpl in Hin; try done;
      by rewrite lookup_empty in Hin.
  - destruct k; simpl; [destruct (eb o) eqn:E|destruct (gb o) eqn:E]; try done;
      intros Hl; [left|right]; exists (p, s); split; try done;
      by apply elem_of_map_to_list.
Qed.

Lemma wf_check_iff w : wf_check w ↔ wf w.
Proof.
  unfold wf_check, wf. rewrite !Forall_forall.
  split; intros (Hm & He & Hg & Hok & Hsep); (split; [done|]); (split; [done|]);
    (split; [done|]); split.
  - intros k p s Hs. apply (Hok (k, p, s)). by apply elem_of_entries.
  - intros k1 p1 s1 k2 p2 s2 H1 H2 Hp.
    apply elem_of_entries in H1, H2.
    specialize (Hsep _ H1). rewrite Forall_forall in Hsep.
    by apply (Hsep _ H2).
  - intros [[k p] s] Hin. apply elem_of_entries in Hin. by apply (Hok k p s).
  - intros [[k1 p1] s1] H1. apply Forall_forall. intros [[k2 p2] s2] H2 Hp.
    apply elem_of_entries in H1, H2. simpl in *. by eapply Hsep.
Qed.

#[global] Instance RWMutex_eq_dec : EqDecision RWMutex.
Proof. solve_decision. Defined.

#[global] Instance slice_ok_dec h s : Decision (slice_ok h s).
Proof.
  unfold slice_ok. destruct (ptr s); [|apply _].
  destruct (h !! p); apply _.
Defined.

#[global] Instance wf_check_dec w : Decision (wf_check w).
Proof. unfold wf_check. apply _. Defined.

#[global] Instance wf_dec w : Decision (wf w).
Proof.
  destruct (decide (wf_check w)) as [Hc|Hc].
  - left. by apply wf_check_iff.
  - right. intros Hw. by apply Hc, wf_check_iff.
Defined.

(** ** Memory lemmas *)

Lemma slice_elems_agree h h' s a :
  ptr s = Some a -> h' !! a = h !! a -> slice_elems h' s = slice_elems h s.
Proof. unfold slice_elems. by intros -> ->. Qed.

Lemma slice_ok_inv h s :
  slice_ok h s ->
  ∃ a arr, ptr s = Some a ∧ h !! a = Some arr ∧ length arr = cap s ∧ len s ≤ cap s.
Proof.
  unfold slice_ok. destruct (ptr s) as [a|]; [|done].
  destruct (h !! a) as [arr|] eqn:E; [|done]. intros [? ?]. by exists a, arr.
Qed.

Lemma slice_ok_intro h s a arr :
  ptr s = Some a -> h !! a = Some arr -> length arr = cap s -> len s ≤ cap s ->
  slice_ok h s.
Proof. unfold slice_ok. by intros -> -> ? ?. Qed.

Lemma slice_ok_agree h h' s a :
  ptr s = Some a -> h' !! a = h !! a -> slice_ok h s -> slice_ok h' s.
Proof. unfold slice_ok. by intros -> ->. Qed.

Lemma slice_ok_elems h s :
  slice_ok h s ->
  ∃ a arr, ptr s = Some a ∧ h !! a = Some arr ∧ length arr = cap s ∧
           len s ≤ cap s ∧ slice_elems h s = Some (take (len s) arr).
Proof.
  intros (a & arr & Hp & Ha & Hc & Hl)%slice_ok_inv. exists a, arr.
  repeat split; try done. unfold slice_elems. rewrite Hp, Ha.
  rewrite decide_True; [done|lia].
Qed.

Lemma fresh_addr_unused (h : gmap addr (list Z)) : h !! fresh (dom h) = None.
Proof. apply not_elem_of_dom, is_fresh. Qed.

Lemma stored_in_heap w k p s a :
  wf w -> stored (spb w) k p = Some s -> ptr s = Some a -> is_Some (heap w !! a).
Proof.
  intros (_ & _ & _ & Hok & _) Hs Hp.
  destruct (slice_ok_inv _ _ (Hok _ _ _ Hs)) as (a' & arr & Hp' & Ha & _).
  rewrite Hp in Hp'. injection Hp' as ->. by exists arr.
Qed.

Lemma stored_not_fresh w k p s :
  wf w -> stored (spb w) k p = Some s -> ptr s ≠ Some (fresh (dom (heap w))).
Proof.
  intros Hw Hs Hp. destruct (stored_in_heap _ _ _ _ _ Hw Hs Hp) as [arr Ha].
  by rewrite fresh_addr_unused in Ha.
Qed.

Lemma wf_frame w h' :
  wf w -> agree_on_stored (spb w) (heap w) h' -> wf (set_heap h' w).
Proof.
  intros (Hm & He & Hg & Hok & Hsep) Hag.
  split; [done|]. split; [done|]. split; [done|]. split; [|done].
  simpl. intros k p s Hs.
  destruct (slice_ok_inv _ _ (Hok _ _ _ Hs)) as (a & arr & Hp & Ha & _).
  exact (slice_ok_agree _ _ _ _ Hp (Hag _ _ _ _ Hs Hp) (Hok _ _ _ Hs)).
Qed.

Lemma log_frame w h' k p :
  wf w -> agree_on_stored (spb w) (heap w) h' -> log k (set_heap h' w) p = log k w p.
Proof.
  intros (Hm & He & Hg & Hok & Hsep) Hag. unfold log. simpl.
  destruct (stored (spb w) k p) as [s|] eqn:Hs; [|done].
  destruct (slice_ok_inv _ _ (Hok _ _ _ Hs)) as (a & arr & Hp & Ha & _).
  by rewrite (slice_elems_agree _ _ _ _ Hp (Hag _ _ _ _ Hs Hp)).
Qed.

Lemma log_length w k p s :
  wf w -> stored (spb w) k p = Some s -> length (log k w p) = len s.
Proof.
  intros (_ & _ & _ & Hok & _) Hs. unfold log. rewrite Hs.
  destruct (slice_ok_elems _ _ (Hok _ _ _ Hs)) as (a & arr & _ & _ & Hc & Hl & ->).
  simpl. rewrite length_take. lia.
Qed.

Lemma log_elems w k p s :
  wf w -> stored (spb w) k p = Some s -> slice_elems (heap w) s = Some (log k w p).
Proof.
  intros (_ & _ & _ & Hok & _) Hs. unfold log. rewrite Hs.
  by destruct (slice_ok_elems _ _ (Hok _ _ _ Hs)) as (a & arr & _ & _ & Hc & Hl & ->).
Qed.

(** ** The fresh struct *)

Lemma wf_New h : wf (NewStoredPeerBehaviour h).
Proof.
  assert (Hno : ∀ k p, stored (spb (NewStoredPeerBehaviour h)) k p = None).
  { intros [] p; unfold stored; simpl; apply lookup_empty. }
  split; [done|]. split; [by eexists|]. split; [by eexists|]. split.
  - intros k p s Hs. by rewrite Hno in Hs.
  - intros k1 p1 s1 k2 p2 s2 Hs. by rewrite Hno in Hs.
Qed.

Lemma log_New h k p : log k (NewStoredPeerBehaviour h) p = [].
Proof. unfold log, stored. destruct k; simpl; by rewrite lookup_empty. Qed.

(** ** What a getter does *)

Lemma read_field_eq k w : read_field k w = Returns (field k (spb w)) w.
Proof. by destruct k. Qed.

Lemma map_index_stored o k p :
  map_index (field k o) p =
    match stored o k p with Some s => (s, true) | None => (nil_slice, false) end.
Proof. unfold map_index, stored. by destruct (field k o). Qed.

Lemma copy_into_new w a src xs :
  heap w !! a = Some (replicate (len src) 0%Z) ->
  slice_elems (heap w) src = Some xs ->
  length xs = len src ->
  copy (Slice (Some a) (len src) (len src)) src w =
    Returns (len src) (set_heap (<[a := xs]> (heap w)) w).
Proof.
  intros Ha Hxs Hlen. unfold copy. simpl. rewrite Ha, Hxs.
  rewrite Nat.min_id, length_replicate. rewrite decide_True by lia.
  rewrite <- Hlen at 2 3. rewrite firstn_all.
  rewrite drop_ge by (rewrite length_replicate; lia).
  by rewrite app_nil_r.
Qed.

Lemma get_spec k p w :
  wf w ->
  get k p w =
    Returns (Slice (Some (fresh (dom (heap w)))) (length (log k w p)) (length (log k w p)))
            (set_heap (<[fresh (dom (heap w)) := log k w p]> (heap w)) w).
Proof.
  intros Hw.
  pose proof (fun s => log_length w k p s Hw) as Hlen.
  pose proof (fun s => log_elems w k p s Hw) as Hel.
  pose proof (fun s => stored_not_fresh w k p s Hw) as Hfr.
  assert (Hnone : stored (spb w) k p = None -> log k w p = []).
  { unfold log. by intros ->. }
  destruct Hw as (Hm & _).
  destruct w as [h [ebm gbm m]]. simpl in *. subst m.
  set (o := Stored ebm gbm unlocked) in *.
  set (l := log k (World h o) p) in *.
  unfold get, defer, bind, RLock, RUnlock. simpl. rewrite read_field_eq. simpl.
  replace (field k (Stored ebm gbm (Mutex false 1))) with (field k o) by (by destruct k).
  rewrite map_index_stored.
  destruct (stored o k p) as [s|] eqn:Hs.
  - specialize (Hlen _ eq_refl). specialize (Hel _ eq_refl). specialize (Hfr _ eq_refl).
    simpl. rewrite copy_into_new with (xs := l); simpl.
    + rewrite insert_insert_eq. by rewrite Hlen.
    + apply lookup_insert_eq.
    + destruct (ptr s) as [a|] eqn:Hp.
      * rewrite (slice_elems_agree h _ s a Hp); [done|].
        apply lookup_insert_ne. congruence.
      * unfold slice_elems in *. by rewrite Hp in *.
    + done.
  - rewrite (Hnone eq_refl). reflexivity.
Qed.

(** ** What a report does *)

Lemma assign_field_eq k p v w :
  assign_field k p v w =
    match field k (spb w) with
    | Some g => Returns tt (World (heap w) (with_field k (Some (<[p := v]> g)) (spb w)))
    | None => Panics "assignment to entry in nil map"
    end.
Proof. by destruct k. Qed.

Lemma stored_with_field o k p v g k2 q :
  field k o = Some g ->
  stored (with_field k (Some (<[p := v]> g)) o) k2 q =
    if decide ((k2, q) = (k, p)) then Some v else stored o k2 q.
Proof.
  intros Hf. unfold stored. case_decide as E.
  - injection E as -> ->. destruct k; simpl; apply lookup_insert_eq.
  - destruct k, k2; simpl in *; try done; rewrite ?Hf;
      apply lookup_insert_ne; congruence.
Qed.

Lemma wf_update w k p g s' h' :
  wf w -> field k (spb w) = Some g ->
  slice_ok h' s' ->
  (∀ k2 q s2, stored (spb w) k2 q = Some s2 -> (k2, q) ≠ (k, p) ->
     ptr s2 ≠ ptr s' ∧ ∀ a, ptr s2 = Some a -> h' !! a = heap w !! a) ->
  let w' := World h' (with_field k (Some (<[p := s']> g)) (spb w)) in
  wf w' ∧
  stored (spb w') k p = Some s' ∧
  (∀ k2 q, (k2, q) ≠ (k, p) ->
     stored (spb w') k2 q = stored (spb w) k2 q ∧ log k2 w' q = log k2 w q).
Proof.
  intros (Hm & He & Hg & Hok & Hsep) Hf Hs' Hothers w'.
  assert (Hst : ∀ k2 q, stored (spb w') k2 q =
                  if decide ((k2, q) = (k, p)) then Some s' else stored (spb w) k2 q).
  { intros. by apply stored_with_field. }
  split; [|split].
  - split; [by destruct k|]. split; [destruct k; simpl; eauto|].
    split; [destruct k; simpl; eauto|]. split.
    + intros k2 q s2. rewrite Hst. case_decide as E.
      * by intros [= <-].
      * intros Hs2. destruct (Hothers _ _ _ Hs2 E) as [_ Hag].
        destruct (slice_ok_inv _ _ (Hok _ _ _ Hs2)) as (a & arr & Hp & Ha & _).
        exact (slice_ok_agree _ _ _ _ Hp (Hag _ Hp) (Hok _ _ _ Hs2)).
    + intros k1 p1 s1 k2 p2 s2. rewrite !Hst.
      case_decide as E1; case_decide as E2.
      * injection E1 as -> ->. by injection E2 as -> ->.
      * intros [= <-] Hs2 Hp. by destruct (Hothers _ _ _ Hs2 E2) as [Hne _].
      * intros Hs1 [= <-] Hp. by destruct (Hothers _ _ _ Hs1 E1) as [Hne _].
      * apply Hsep.
  - rewrite Hst. by rewrite decide_True.
  - intros k2 q E. rewrite Hst. rewrite decide_False by done. split; [done|].
    unfold log. rewrite Hst. rewrite decide_False by done.
    destruct (stored (spb w) k2 q) as [s2|] eqn:Hs2; [|done].
    destruct (Hothers _ _ _ Hs2 E) as [_ Hag].
    destruct (slice_ok_inv _ _ (Hok _ _ _ Hs2)) as (a & arr & Hp & Ha & _).
    simpl. by rewrite (slice_elems_agree _ _ _ _ Hp (Hag _ Hp)).
Qed.

Lemma append_spec s x w a arr :
  ptr s = Some a -> heap w !! a = Some arr -> length arr = cap s -> len s ≤ cap s ->
  ∃ s' h',
    append s x w = Returns s' (set_heap h' w) ∧
    slice_ok h' s' ∧
    slice_elems h' s' = Some (take (len s) arr ++ [x]) ∧
    (ptr s' = Some a ∨ ptr s' = Some (fresh (dom (heap w)))) ∧
    (∀ b, Some b ≠ ptr s' -> h' !! b = heap w !! b) ∧
    dom (heap w) ⊆ dom h' ∧
    (∀ b arr0, heap w !! b = Some arr0 ->
       ∃ arr', h' !! b = Some arr' ∧ length arr' = length arr0).
Proof.
  intros Hp Ha Hc Hl. unfold append. case_decide as Hroom.
  - rewrite Hp, Ha. rewrite decide_True by lia.
    eexists _, _. split; [reflexivity|]. simpl.
    split; [|split; [|split; [|split; [|split]]]].
    + unfold slice_ok. simpl. rewrite lookup_insert_eq, length_insert. lia.
    + unfold slice_elems. simpl. rewrite lookup_insert_eq, length_insert.
      rewrite decide_True by lia. f_equal.
      rewrite (take_S_r _ _ x) by (apply list_lookup_insert_eq; lia).
      by rewrite take_insert_ge by lia.
    + by left.
    + intros b Hb. apply lookup_insert_ne. congruence.
    + rewrite dom_insert_L. apply union_subseteq_r.
    + intros b arr0 Hb. destruct (decide (a = b)) as [<-|Hne].
      * rewrite lookup_insert_eq. eexists. split; [done|].
        rewrite length_insert. congruence.
      * rewrite lookup_insert_ne by done. eauto.
  - unfold slice_elems. rewrite Hp, Ha. rewrite decide_True by lia.
    unfold bind, alloc, ret. simpl.
    eexists _, _. split; [reflexivity|]. simpl.
    assert (Hfull : take (len s) arr = arr) by (apply take_ge; lia).
    rewrite Hfull.
    split; [|split; [|split; [|split; [|split]]]].
    + unfold slice_ok. simpl. rewrite lookup_insert_eq.
      rewrite length_app. simpl. rewrite length_replicate. lia.
    + simpl. rewrite lookup_insert_eq.
      rewrite decide_True by (rewrite length_app; simpl; lia).
      f_equal. rewrite (cons_middle x), app_assoc.
      rewrite take_app_length'; [done|]. rewrite length_app. simpl. lia.
    + by right.
    + intros b Hb. apply lookup_insert_ne. congruence.
    + rewrite dom_insert_L. apply union_subseteq_r.
    + intros b arr0 Hb. exists arr0. split; [|done].
      rewrite lookup_insert_ne; [done|]. intros <-.
      by rewrite fresh_addr_unused in Hb.
Qed.

Lemma report_run k p r w g :
  wf w -> field k (spb w) = Some g ->
  ∃ s' h',
    report k p r w = Returns tt (World h' (with_field k (Some (<[p := s']> g)) (spb w))) ∧
    slice_ok h' s' ∧
    slice_elems h' s' = Some (log k w p ++ [r]) ∧
    (∀ k2 q s2, stored (spb w) k2 q = Some s2 -> (k2, q) ≠ (k, p) ->
       ptr s2 ≠ ptr s' ∧ ∀ a, ptr s2 = Some a -> h' !! a = heap w !! a) ∧
    (ptr s' = Some (fresh (dom (heap w))) ∨
     ∃ s, stored (spb w) k p = Some s ∧ ptr s' = ptr s) ∧
    dom (heap w) ⊆ dom h' ∧
    (∀ b, Some b ≠ ptr s' -> h' !! b = heap w !! b).
Proof.
  intros Hw Hf.
  pose proof (fun k q s => stored_not_fresh w k q s Hw) as Hfr.
  destruct (Hw) as (Hm & _ & _ & Hok & Hsep).
  unfold report, defer, bind, Lock, Unlock. rewrite Hm. simpl.
  rewrite read_field_eq. simpl.
  replace (field k (Stored (eb (spb w)) (gb (spb w)) (Mutex true 0)))
    with (field k (spb w)) by (by destruct k).
  rewrite map_index_stored. unfold log.
  destruct (stored (spb w) k p) as [s|] eqn:Hs; simpl.
  - rewrite read_field_eq. simpl.
    replace (field k (Stored (eb (spb w)) (gb (spb w)) (Mutex true 0)))
      with (field k (spb w)) by (by destruct k).
    rewrite map_index_stored, Hs. simpl.
    destruct (slice_ok_elems _ _ (Hok _ _ _ Hs)) as (a & arr & Hp & Ha & Hc & Hl & Hel).
    destruct (append_spec s r (set_mtx (Mutex true 0) w) a arr)
      as (s' & h' & -> & Hok' & Hel' & Hptr & Hfrm & Hdom & _); try done.
    rewrite assign_field_eq. simpl.
    replace (field k (Stored (eb (spb w)) (gb (spb w)) (Mutex true 0)))
      with (field k (spb w)) by (by destruct k).
    rewrite Hf.
    exists s', h'. split; [destruct k; simpl; by rewrite Hm|].
    split; [done|]. split; [by rewrite Hel', Hel|].
    split; [|split; [|done]];
      [|destruct Hptr as [E|E]; [right; exists s; by rewrite E, Hp|by left]].
    intros k2 q s2 Hs2 Hne.
    assert (ptr s2 ≠ ptr s') as Hdiff.
    { destruct Hptr as [E|E]; rewrite E.
      - rewrite <- Hp. intros Heq.
        destruct (Hsep _ _ _ _ _ _ Hs2 Hs Heq) as [-> ->]. done.
      - by apply (Hfr k2 q). }
    split; [done|]. intros b Hb. apply Hfrm. congruence.
  - rewrite assign_field_eq. simpl.
    replace (field k (Stored (eb (spb w)) (gb (spb w)) (Mutex true 0)))
      with (field k (spb w)) by (by destruct k).
    rewrite Hf.
    eexists _, _. split; [destruct k; simpl; by rewrite Hm|].
    split; [|split; [|split; [|split]]].
    + unfold slice_ok. simpl. by rewrite lookup_insert_eq.
    + unfold slice_elems. simpl. by rewrite lookup_insert_eq.
    + intros k2 q s2 Hs2 Hne. simpl. split; [by apply (Hfr k2 q)|].
      intros b Hb. apply lookup_insert_ne. intros <-.
      by apply (Hfr k2 q s2).
    + by left.
    + simpl. split; [rewrite dom_insert_L; apply union_subseteq_r|].
      intros b Hb. apply lookup_insert_ne. congruence.
Qed.

Lemma report_spec k p r w :
  wf w ->
  ∃ w', report k p r w = Returns tt w' ∧ wf w' ∧
        log k w' p = log k w p ++ [r] ∧
        is_Some (stored (spb w') k p) ∧
        (∀ k2 q, (k2, q) ≠ (k, p) ->
           stored (spb w') k2 q = stored (spb w) k2 q ∧ log k2 w' q = log k2 w q) ∧
        (∀ s', stored (spb w') k p = Some s' ->
           ptr s' = Some (fresh (dom (heap w))) ∨
           ∃ s, stored (spb w) k p = Some s ∧ ptr s' = ptr s) ∧
        dom (heap w) ⊆ dom (heap w') ∧
        (∀ b, b ∈ dom (heap w) ->
           (∀ k2 q s2, stored (spb w) k2 q = Some s2 -> ptr s2 ≠ Some b) ->
           heap w' !! b = heap w !! b).
Proof.
  intros Hw.
  assert (∃ g, field k (spb w) = Some g) as [g Hf].
  { destruct Hw as (_ & [? ?] & [? ?] & _). destruct k; simpl; eauto. }
  destruct (report_run k p r w g Hw Hf)
    as (s' & h' & Hrun & Hok' & Hel' & Hoth & Hfrom & Hdom & Hfrm).
  destruct (wf_update w k p g s' h' Hw Hf Hok' Hoth) as (Hwf' & Hst' & Hrest).
  eexists. split; [exact Hrun|]. split; [done|].
  split; [|split; [|split; [done|split; [|split; [done|]]]]].
  - unfold log at 1. rewrite Hst'. simpl. by rewrite Hel'.
  - rewrite Hst'. eauto.
  - intros s2. rewrite Hst'. by intros [= <-].
  - simpl. intros b Hb Hpriv. apply Hfrm.
    destruct Hfrom as [->|(s & Hs & ->)].
    + intros [= ->]. by apply is_fresh in Hb.
    + intros Heq. by apply (Hpriv _ _ _ Hs).
Qed.
(** ** Consequences *)

Lemma returned_elems_get k p w :
  wf w -> returned_elems (get k p w) = Some (log k w p).
Proof.
  intros Hw. rewrite get_spec by done. unfold returned_elems, slice_elems. simpl.
  rewrite lookup_insert_eq. rewrite decide_True by done. by rewrite firstn_all.
Qed.

(** A memory that kept every array it had keeps the struct well-formed and
    its logs as they were. *)
Lemma frame_world w w2 :
  wf w -> spb w2 = spb w ->
  (∀ a, a ∈ dom (heap w) -> heap w2 !! a = heap w !! a) ->
  wf w2 ∧ ∀ k p, log k w2 p = log k w p.
Proof.
  intros Hw Hspb Hkeep.
  assert (Hag : agree_on_stored (spb w) (heap w) (heap w2)).
  { intros k p s a Hs Hp. apply Hkeep. apply elem_of_dom.
    by eapply stored_in_heap. }
  replace w2 with (set_heap (heap w2) w)
    by (destruct w2; simpl in *; by subst).
  split; [by apply wf_frame|]. intros. by apply log_frame.
Qed.

Lemma get_frame k p w :
  wf w ->
  ∃ s w', get k p w = Returns s w' ∧ spb w' = spb w ∧
          ptr s = Some (fresh (dom (heap w))) ∧
          len s = length (log k w p) ∧
          slice_elems (heap w') s = Some (log k w p) ∧
          heap w' = <[fresh (dom (heap w)) := log k w p]> (heap w).
Proof.
  intros Hw. pose proof (returned_elems_get k p w Hw) as Hel.
  rewrite get_spec in * by done. eexists _, _. split; [reflexivity|]. done.
Qed.

Lemma get_keeps k p w s w' :
  wf w -> get k p w = Returns s w' ->
  spb w' = spb w ∧ heap w ⊆ heap w' ∧ wf w' ∧ ∀ k2 q, log k2 w' q = log k2 w q.
Proof.
  intros Hw Hget. rewrite get_spec in Hget by done. injection Hget as <- <-.
  assert (heap w ⊆ <[fresh (dom (heap w)) := log k w p]> (heap w)) as Hsub.
  { apply insert_subseteq, fresh_addr_unused. }
  split; [done|]. split; [done|].
  apply frame_world; [done|done|]. simpl. intros a Ha.
  apply lookup_insert_ne. intros <-. by apply is_fresh in Ha.
Qed.

Lemma do_gets_keeps cs : ∀ w,
  wf w ->
  ∃ w', do_gets cs w = Returns tt w' ∧ spb w' = spb w ∧ heap w ⊆ heap w' ∧
        wf w' ∧ ∀ k q, log k w' q = log k w q.
Proof.
  induction cs as [|c cs IH]; intros w Hw.
  - exists w. split; [done|]. split; [done|]. split; [reflexivity|]. by split.
  - assert (∃ k p, do_get c = get k p) as (k & p & Hc).
    { destruct c as [p|p]; [exists KError, p|exists KGood, p]; reflexivity. }
    destruct (get_frame k p w Hw) as (s & w1 & Hget & _).
    destruct (get_keeps k p w s w1 Hw Hget) as (Hspb & Hsub & Hw1 & Hlog).
    destruct (IH w1 Hw1) as (w' & Hrun & Hspb' & Hsub' & Hw' & Hlog').
    exists w'. simpl. unfold bind. rewrite Hc, Hget. split; [done|].
    split; [congruence|]. split; [by etrans|]. split; [done|].
    intros. by rewrite Hlog', Hlog.
Qed.

Lemma do_report_spec c w :
  wf w ->
  ∃ w', do_report c w = Returns tt w' ∧ wf w' ∧
    ∀ p, log KError w' p = log KError w p ++ errors_of p [c] ∧
         log KGood w' p = log KGood w p ++ goods_of p [c] ∧
         (stored (spb w') KError p = None ↔
            stored (spb w) KError p = None ∧ errors_of p [c] = []) ∧
         (stored (spb w') KGood p = None ↔
            stored (spb w) KGood p = None ∧ goods_of p [c] = []).
Proof.
  intros Hw.
  assert (∃ k q r, do_report c = report k q r ∧
            (∀ p, errors_of p [c] = if decide ((KError, p) = (k, q)) then [r] else []) ∧
            (∀ p, goods_of p [c] = if decide ((KGood, p) = (k, q)) then [r] else []))
    as (k & q & r & Hc & Herr & Hgood).
  { destruct c as [q r|q r]; [exists KError, q, r|exists KGood, q, r];
      (split; [reflexivity|]); split; intros p; simpl;
      repeat case_decide; simplify_eq; done. }
  destruct (report_spec k q r w Hw) as (w' & Hrun & Hw' & Hlog & Hsome & Hoth & _).
  exists w'. rewrite Hc. split; [done|]. split; [done|]. intros p.
  rewrite Herr, Hgood.
  assert (∀ k2, (k2, p) = (k, q) ->
            log k2 w' p = log k2 w p ++ [r] ∧
            (stored (spb w') k2 p = None ↔ stored (spb w) k2 p = None ∧ [r] = [])) as Hsame.
  { intros k2 [= -> ->]. split; [done|]. destruct Hsome as [s ->].
    split; [done|]. by intros [_ ?]. }
  assert (∀ k2, (k2, p) ≠ (k, q) ->
            log k2 w' p = log k2 w p ++ [] ∧
            (stored (spb w') k2 p = None ↔
               stored (spb w) k2 p = None ∧ @nil Z = [])) as Hdiff.
  { intros k2 Hne. destruct (Hoth _ _ Hne) as [-> ->]. rewrite app_nil_r. tauto. }
  repeat case_decide;
    repeat match goal with
    | E : (_, _) = (_, _) |- _ => destruct (Hsame _ E); clear E
    | E : (_, _) ≠ (_, _) |- _ => destruct (Hdiff _ E); clear E
    end; done.
Qed.

Lemma do_reports_spec cs : ∀ w,
  wf w ->
  ∃ w', do_reports cs w = Returns tt w' ∧ wf w' ∧
    ∀ p, log KError w' p = log KError w p ++ errors_of p cs ∧
         log KGood w' p = log KGood w p ++ goods_of p cs ∧
         (stored (spb w') KError p = None ↔
            stored (spb w) KError p = None ∧ errors_of p cs = []) ∧
         (stored (spb w') KGood p = None ↔
            stored (spb w) KGood p = None ∧ goods_of p cs = []).
Proof.
  induction cs as [|c cs IH]; intros w Hw.
  - exists w. split; [done|]. split; [done|]. intros p. simpl.
    rewrite !app_nil_r. tauto.
  - destruct (do_report_spec c w Hw) as (w1 & Hc & Hw1 & H1).
    destruct (IH w1 Hw1) as (w' & Hcs & Hw' & H2).
    assert (Hecons : ∀ p, errors_of p (c :: cs) = errors_of p [c] ++ errors_of p cs).
    { intros p. destruct c; simpl; [case_decide|]; done. }
    assert (Hgcons : ∀ p, goods_of p (c :: cs) = goods_of p [c] ++ goods_of p cs).
    { intros p. destruct c; simpl; [|case_decide]; done. }
    exists w'. split; [simpl; unfold bind; by rewrite Hc|]. split; [done|].
    intros p. destruct (H1 p) as (E1 & G1 & SE1 & SG1).
    destruct (H2 p) as (E2 & G2 & SE2 & SG2).
    rewrite Hecons, Hgcons.
    rewrite E2, G2, E1, G1, SE2, SG2, SE1, SG1, <- !app_assoc.
    split; [done|]. split; [done|].
    split; (split; [intros [[? ?] ?]; split; [done|]; by apply app_nil
                   |intros [? [? ?]%app_nil]; done]).
Qed.

(** One step of the caller on a slice that has its array: an index out of
    range panics; otherwise the step returns, the struct is untouched, the
    arrays other than the slice's own are what they were and every array
    keeps its length. *)
Lemma mutate1_spec m s w :
  slice_ok (heap w) s ->
  mutate1 m s w = Panics "index out of range" ∨
  ∃ s' w', mutate1 m s w = Returns s' w' ∧
    spb w' = spb w ∧
    slice_ok (heap w') s' ∧
    (ptr s' = ptr s ∨ ptr s' = Some (fresh (dom (heap w)))) ∧
    (∀ b, b ∈ dom (heap w) -> Some b ≠ ptr s -> heap w' !! b = heap w !! b) ∧
    (∀ b arr, heap w !! b = Some arr ->
       ∃ arr', heap w' !! b = Some arr' ∧ length arr' = length arr).
Proof.
  intros (a & arr & Hp & Ha & Hc & Hl)%slice_ok_inv.
  destruct m as [i v|v]; simpl.
  - unfold bind, index_assign. case_decide as Hi; [|by left]. right.
    rewrite Hp, Ha. rewrite decide_True by lia. simpl.
    eexists _, _. split; [reflexivity|]. simpl. split; [done|].
    split; [|split; [by left|split]].
    + unfold slice_ok. rewrite Hp, lookup_insert_eq, length_insert. done.
    + intros b _ Hb. apply lookup_insert_ne. congruence.
    + intros b arr0 Hb. destruct (decide (a = b)) as [<-|Hne].
      * rewrite lookup_insert_eq. eexists. split; [done|].
        rewrite length_insert. congruence.
      * rewrite lookup_insert_ne by done. eauto.
  - right.
    destruct (append_spec s v w a arr Hp Ha Hc Hl)
      as (s' & h' & Hrun & Hok' & _ & Hptr & Hfrm & Hdom & Hlen).
    exists s', (set_heap h' w). split; [done|]. simpl. split; [done|].
    split; [done|]. split; [rewrite Hp; tauto|]. split; [|done].
    intros b Hb Hne. apply Hfrm. destruct Hptr as [->| ->]; [congruence|].
    intros [= ->]. by apply is_fresh in Hb.
Qed.

Lemma kept_ok_keep w w' s :
  spb w' = spb w ->
  (∀ b arr, heap w !! b = Some arr ->
     ∃ arr', heap w' !! b = Some arr' ∧ length arr' = length arr) ->
  kept_ok w s -> kept_ok w' s.
Proof.
  intros Hspb Hlen [Hok Hpriv]. split; [|by rewrite Hspb].
  apply slice_ok_inv in Hok as (a & arr & Hp & Ha & Hc & Hl).
  destruct (Hlen _ _ Ha) as (arr' & Ha' & Hlen').
  apply (slice_ok_intro _ _ a arr'); try done. congruence.
Qed.

Lemma mutate1_kept m s w kept :
  wf w -> kept_ok w s -> Forall (kept_ok w) kept ->
  mutate1 m s w = Panics "index out of range" ∨
  ∃ s' w', mutate1 m s w = Returns s' w' ∧
    wf w' ∧ spb w' = spb w ∧ (∀ k q, log k w' q = log k w q) ∧
    Forall (kept_ok w') (s' :: kept).
Proof.
  intros Hw [Hok Hpriv] Hkept.
  destruct (mutate1_spec m s w Hok)
    as [?|(s' & w' & Hrun & Hspb & Hok' & Hptr & Hfrm & Hlen)]; [by left|right].
  exists s', w'. split; [done|].
  assert (Hag : agree_on_stored (spb w) (heap w) (heap w')).
  { intros k p s2 a Hs2 Hp2. apply Hfrm.
    - apply elem_of_dom. by eapply stored_in_heap.
    - rewrite <- Hp2. intros E. by apply (Hpriv _ _ _ Hs2). }
  assert (w' = set_heap (heap w') w) as Hw'
    by (destruct w'; simpl in *; by subst).
  split; [rewrite Hw'; by apply wf_frame|]. split; [done|].
  split; [intros; rewrite Hw'; by apply log_frame|].
  constructor.
  - split; [done|]. rewrite Hspb. intros k p s2 Hs2.
    destruct Hptr as [->| ->]; [by apply (Hpriv k p)|].
    by apply (stored_not_fresh w k p).
  - eapply Forall_impl; [exact Hkept|]. intros x. by apply kept_ok_keep.
Qed.

Lemma get_kept k p w kept :
  wf w -> Forall (kept_ok w) kept ->
  ∃ s w', get k p w = Returns s w' ∧
    wf w' ∧ spb w' = spb w ∧ (∀ k2 q, log k2 w' q = log k2 w q) ∧
    Forall (kept_ok w') (s :: kept).
Proof.
  intros Hw Hkept.
  destruct (get_frame k p w Hw) as (s & w' & Hget & _ & Hp & Hl & Hel & Hheap).
  destruct (get_keeps k p w s w' Hw Hget) as (Hspb & Hsub & Hw' & Hlog).
  exists s, w'. split; [done|]. split; [done|]. split; [done|]. split; [done|].
  constructor.
  - split.
    + rewrite get_spec in Hget by done. injection Hget as <- <-.
      unfold slice_ok. simpl. by rewrite lookup_insert_eq.
    + rewrite Hspb, Hp. intros k2 q s2. by apply stored_not_fresh.
  - eapply Forall_impl; [exact Hkept|]. intros x. apply kept_ok_keep; [done|].
    intros b arr Hb. exists arr. split; [|done].
    by apply (lookup_weaken _ _ _ _ Hb).
Qed.

Lemma report_kept k p r w kept :
  wf w -> Forall (kept_ok w) kept ->
  ∃ w', report k p r w = Returns tt w' ∧ wf w' ∧
    log k w' p = log k w p ++ [r] ∧
    (∀ k2 q, (k2, q) ≠ (k, p) -> log k2 w' q = log k2 w q) ∧
    Forall (kept_ok w') kept.
Proof.
  intros Hw Hkept.
  destruct (report_spec k p r w Hw)
    as (w' & Hrun & Hw' & Hlog & Hsome & Hoth & Hfrom & Hdom & Hfrm).
  exists w'. split; [done|]. split; [done|]. split; [done|].
  split; [intros; by apply Hoth|].
  eapply Forall_impl; [exact Hkept|]. intros x [Hok Hpriv].
  destruct (slice_ok_inv _ _ Hok) as (a & arr & Hp & Ha & Hc & Hl).
  assert (heap w' !! a = heap w !! a) as Hsame.
  { apply Hfrm; [by apply elem_of_dom|]. intros k2 q s2 Hs2.
    rewrite <- Hp. by apply (Hpriv k2 q). }
  split.
  - apply (slice_ok_agree (heap w) _ _ a); done.
  - intros k2 q s2 Hs2. destruct (decide ((k2, q) = (k, p))) as [[= -> ->]|Hne].
    + destruct (Hfrom _ Hs2) as [->|(s & Hs & ->)].
      * rewrite Hp. intros [= E].
        pose proof (fresh_addr_unused (heap w)) as Hno. by rewrite E, Ha in Hno.
      * by apply (Hpriv k p).
    + destruct (Hoth _ _ Hne) as [Hst _]. rewrite Hst in Hs2.
      by apply (Hpriv k2 q).
Qed.

(** Whatever a caller does, only an assignment of its own out of range
    stops it, and the logs are the reports made. *)
Lemma run_actions_spec acts : ∀ kept w,
  wf w -> Forall (kept_ok w) kept ->
  run_actions acts kept w = Panics "index out of range" ∨
  ∃ kept' w', run_actions acts kept w = Returns kept' w' ∧ wf w' ∧
    ∀ p, log KError w' p = log KError w p ++ errors_of p (reports_of acts) ∧
         log KGood w' p = log KGood w p ++ goods_of p (reports_of acts).
Proof.
  induction acts as [|act acts IH]; intros kept w Hw Hkept.
  - right. exists kept, w. split; [done|]. split; [done|]. intros p. simpl.
    by rewrite !app_nil_r.
  - destruct act as [c|c|n m]; cbn [run_actions reports_of]; unfold bind.
    + assert (∃ k q r, do_report c = report k q r ∧
        (∀ p, errors_of p (c :: reports_of acts) =
                (if decide ((KError, p) = (k, q)) then [r] else []) ++
                errors_of p (reports_of acts)) ∧
        (∀ p, goods_of p (c :: reports_of acts) =
                (if decide ((KGood, p) = (k, q)) then [r] else []) ++
                goods_of p (reports_of acts)))
        as (k & q & r & Hc & Herr & Hgood).
      { destruct c as [q r|q r]; [exists KError, q, r|exists KGood, q, r];
          (split; [reflexivity|]); split; intros p; simpl;
          repeat case_decide; simplify_eq; done. }
      destruct (report_kept k q r w kept Hw Hkept)
        as (w1 & Hrun & Hw1 & Hlog & Hoth & Hkept1).
      rewrite Hc, Hrun.
      destruct (IH kept w1 Hw1 Hkept1) as [->|(kept' & w' & -> & Hw' & Hlogs)];
        [by left|right].
      exists kept', w'. split; [done|]. split; [done|]. intros p.
      destruct (Hlogs p) as [-> ->]. rewrite Herr, Hgood, !app_assoc.
      split; f_equal; case_decide as E.
      * injection E as <- <-. exact Hlog.
      * rewrite app_nil_r. by apply Hoth.
      * injection E as <- <-. exact Hlog.
      * rewrite app_nil_r. by apply Hoth.
    + assert (∃ k p, do_get c = get k p) as (k & p & Hc).
      { destruct c as [p|p]; [exists KError, p|exists KGood, p]; reflexivity. }
      destruct (get_kept k p w kept Hw Hkept)
        as (s & w1 & Hrun & Hw1 & _ & Hlog & Hkept1).
      rewrite Hc, Hrun.
      destruct (IH (s :: kept) w1 Hw1 Hkept1) as [->|(kept' & w' & -> & Hw' & Hlogs)];
        [by left|right].
      exists kept', w'. split; [done|]. split; [done|]. intros q.
      destruct (Hlogs q) as [-> ->]. by rewrite !Hlog.
    + destruct (kept !! n) as [s|] eqn:Hn; [|by apply IH].
      assert (kept_ok w s) as Hs.
      { rewrite Forall_forall in Hkept. apply Hkept.
        by apply list_elem_of_lookup_2 in Hn. }
      destruct (mutate1_kept m s w kept Hw Hs Hkept)
        as [->|(s' & w1 & -> & Hw1 & _ & Hlog & Hkept1)]; [by left|].
      destruct (IH (s' :: kept) w1 Hw1 Hkept1) as [->|(kept' & w' & -> & Hw' & Hlogs)];
        [by left|right].
      exists kept', w'. split; [done|]. split; [done|]. intros p.
      destruct (Hlogs p) as [-> ->]. by rewrite !Hlog.
Qed.

Lemma mutate_kept ms : ∀ s w,
  wf w -> kept_ok w s ->
  ∀ s' w', mutate ms s w = Returns s' w' ->
    wf w' ∧ spb w' = spb w ∧ ∀ k q, log k w' q = log k w q.
Proof.
  induction ms as [|m ms IH]; intros s w Hw Hs s' w' Hrun.
  - injection Hrun as <- <-. done.
  - simpl in Hrun. unfold bind in Hrun.
    destruct (mutate1_kept m s w [] Hw Hs (Forall_nil_2 _))
      as [E|(s1 & w1 & E & Hw1 & Hspb & Hlog & Hkept1)]; rewrite E in Hrun; [done|].
    apply Forall_cons in Hkept1 as [Hs1 _].
    destruct (IH s1 w1 Hw1 Hs1 s' w' Hrun) as (Hw' & Hspb' & Hlog').
    split; [done|]. split; [congruence|]. intros. by rewrite Hlog', Hlog.
Qed.

Lemma get_then_mutate k p ms w :
  wf w ->
  ∃ s w1, get k p w = Returns s w1 ∧
          slice_elems (heap w1) s = Some (log k w p) ∧
          ∀ s' w2, mutate ms s w1 = Returns s' w2 ->
            wf w2 ∧ spb w2 = spb w ∧
            (∀ k2 q, log k2 w2 q = log k2 w q) ∧
            returned_elems (get k p w2) = Some (log k w p).
Proof.
  intros Hw.
  destruct (get_frame k p w Hw) as (s & w1 & Hget & _ & _ & _ & Hel & _).
  destruct (get_kept k p w [] Hw (Forall_nil_2 _))
    as (s0 & w0 & Hget0 & Hw1 & Hspb & Hlog & Hkept).
  rewrite Hget in Hget0. injection Hget0 as <- <-.
  apply Forall_cons in Hkept as [Hs _].
  exists s, w1. split; [done|]. split; [done|]. intros s' w2 Hmut.
  destruct (mutate_kept ms s w1 Hw1 Hs s' w2 Hmut) as (Hw2 & Hspb2 & Hlog2).
  split; [done|]. split; [congruence|].
  split; [intros; by rewrite Hlog2, Hlog|].
  rewrite returned_elems_get by done. by rewrite Hlog2, Hlog.
Qed.

(** A method called while the write lock is held waits: its body does not
    run. *)
Lemma held_mutex_blocks k p r w :
  writer (mtx (spb w)) = true ->
  report k p r w = Blocks ∧ get k p w = Blocks.
Proof.
  intros Hheld. unfold report, get, bind, Lock, RLock. by rewrite Hheld.
Qed.

(** ** The properties of the specification *)

(** C1: after any sequence of Errored and Behaved reports on a new
    StoredPeerBehaviour, GetErrorBehaviours(p) returns the reasons of the
    Errored reports about p, in the order they were made, and
    GetGoodBehaviours(p) those of the Behaved reports about p; a report of
    one kind is never in the log of the other.  In particular, after
    Errored(p1, MessageOutofOrder), Behaved(p1, Vote), Errored(p1,
    BadMessage): GetErrorBehaviours(p1) = [MessageOutofOrder, BadMessage],
    GetGoodBehaviours(p1) = [Vote] and GetErrorBehaviours(p2) = []. *)
Theorem reports_recorded_in_order (h0 : gmap addr (list Z))
    (cs : list report_call) (p : ID) :
  returned_elems ((do_reports cs;; GetErrorBehaviours p) (NewStoredPeerBehaviour h0))
    = Some (errors_of p cs) ∧
  returned_elems ((do_reports cs;; GetGoodBehaviours p) (NewStoredPeerBehaviour h0))
    = Some (goods_of p cs) ∧
  (∀ p1 p2, p1 ≠ p2 ->
     let scenario :=
       [CallErrored p1 ErrorPeerBehaviourMessageOutofOrder;
        CallBehaved p1 GoodPeerBehaviourVote;
        CallErrored p1 ErrorPeerBehaviourBadMessage] in
     returned_elems ((do_reports scenario;; GetErrorBehaviours p1) (NewStoredPeerBehaviour h0))
       = Some [ErrorPeerBehaviourMessageOutofOrder; ErrorPeerBehaviourBadMessage] ∧
     returned_elems ((do_reports scenario;; GetGoodBehaviours p1) (NewStoredPeerBehaviour h0))
       = Some [GoodPeerBehaviourVote] ∧
     returned_elems ((do_reports scenario;; GetErrorBehaviours p2) (NewStoredPeerBehaviour h0))
       = Some []).
Proof.
  assert (Hgen : ∀ cs k q,
    returned_elems ((do_reports cs;; get k q) (NewStoredPeerBehaviour h0)) =
      Some (match k with KError => errors_of q cs | KGood => goods_of q cs end)).
  { intros cs' k q.
    destruct (do_reports_spec cs' _ (wf_New h0)) as (w & Hrun & Hw & Hlog).
    unfold bind. rewrite Hrun. rewrite returned_elems_get by done.
    destruct (Hlog q) as (He & Hg & _). rewrite !log_New in *.
    destruct k; [by rewrite He|by rewrite Hg]. }
  split; [exact (Hgen cs KError p)|]. split; [exact (Hgen cs KGood p)|].
  intros p1 p2 Hne scenario.
  split; [|split].
  - etrans; [exact (Hgen scenario KError p1)|]. subst scenario. simpl.
    by rewrite !decide_True.
  - etrans; [exact (Hgen scenario KGood p1)|]. subst scenario. simpl.
    by rewrite !decide_True.
  - etrans; [exact (Hgen scenario KError p2)|]. subst scenario. simpl.
    by rewrite !decide_False.
Qed.

(** C5: the slice GetErrorBehaviours(p) (GetGoodBehaviours(p)) returns is a
    copy.  In every state, whatever assignments and appends the caller makes
    through the slice returned, the same getter called again returns the
    content the first call returned, and every stored log is what it was.
    And whatever a caller does with the struct and with the slices it was
    returned (reports, reads, assignments and appends, in any order), a
    getter returns the reasons reported, in order: the caller cannot change
    a stored log through a slice.  (Only the caller's own assignment out of
    range stops such a run.) *)
Theorem getters_return_copies (p : ID) :
  (∀ w ms, wf w ->
     (∃ s w1, GetErrorBehaviours p w = Returns s w1 ∧
        slice_elems (heap w1) s = Some (log KError w p) ∧
        ∀ s' w2, mutate ms s w1 = Returns s' w2 ->
          returned_elems (GetErrorBehaviours p w2) = Some (log KError w p) ∧
          wf w2 ∧ ∀ k q, log k w2 q = log k w q) ∧
     (∃ s w1, GetGoodBehaviours p w = Returns s w1 ∧
        slice_elems (heap w1) s = Some (log KGood w p) ∧
        ∀ s' w2, mutate ms s w1 = Returns s' w2 ->
          returned_elems (GetGoodBehaviours p w2) = Some (log KGood w p) ∧
          wf w2 ∧ ∀ k q, log k w2 q = log k w q)) ∧
  (∀ h0 acts,
     run_actions acts [] (NewStoredPeerBehaviour h0) = Panics "index out of range" ∨
     ∃ kept w, run_actions acts [] (NewStoredPeerBehaviour h0) = Returns kept w ∧
       returned_elems (GetErrorBehaviours p w) = Some (errors_of p (reports_of acts)) ∧
       returned_elems (GetGoodBehaviours p w) = Some (goods_of p (reports_of acts))).
Proof.
  split.
  - intros w ms Hw.
    assert (Hgen : ∀ k, ∃ s w1, get k p w = Returns s w1 ∧
       slice_elems (heap w1) s = Some (log k w p) ∧
       ∀ s' w2, mutate ms s w1 = Returns s' w2 ->
         returned_elems (get k p w2) = Some (log k w p) ∧
         wf w2 ∧ ∀ k2 q, log k2 w2 q = log k2 w q).
    { intros k. destruct (get_then_mutate k p ms w Hw) as (s & w1 & Hget & Hel & Hmut).
      exists s, w1. split; [done|]. split; [done|]. intros s' w2 Hrun.
      destruct (Hmut s' w2 Hrun) as (? & ? & ? & ?). done. }
    split; [exact (Hgen KError)|exact (Hgen KGood)].
  - intros h0 acts.
    destruct (run_actions_spec acts [] _ (wf_New h0) (Forall_nil_2 _))
      as [?|(kept & w & Hrun & Hw & Hlogs)]; [by left|right].
    exists kept, w. split; [done|].
    rewrite GetErrorBehaviours_get, GetGoodBehaviours_get.
    rewrite !returned_elems_get by done.
    destruct (Hlogs p) as [-> ->]. by rewrite !log_New.
Qed.

(** C6: for a peer about which nothing has been reported, the map has no
    key, and GetErrorBehaviours (GetGoodBehaviours) returns an empty slice
    that is not nil; so does every read of a peer whose key is absent. *)
Theorem unreported_peer_reads_empty (h0 : gmap addr (list Z))
    (cs : list report_call) (p : ID) :
  (∃ w, do_reports cs (NewStoredPeerBehaviour h0) = Returns tt w ∧
     (errors_of p cs = [] ->
        stored (spb w) KError p = None ∧ returns_empty (GetErrorBehaviours p w)) ∧
     (goods_of p cs = [] ->
        stored (spb w) KGood p = None ∧ returns_empty (GetGoodBehaviours p w))) ∧
  (∀ w, wf w ->
     (stored (spb w) KError p = None -> returns_empty (GetErrorBehaviours p w)) ∧
     (stored (spb w) KGood p = None -> returns_empty (GetGoodBehaviours p w))).
Proof.
  assert (Hgen : ∀ w k, wf w -> stored (spb w) k p = None -> returns_empty (get k p w)).
  { intros w k Hw Hs. destruct (get_frame k p w Hw) as (s & w' & Hget & _ & Hp & Hl & Hel & _).
    assert (log k w p = []) as Hnil by (unfold log; by rewrite Hs).
    rewrite Hnil in *. exists s, w'. rewrite Hp. split; [done|]. by split; [eexists|]. }
  split; [|intros w Hw; split; apply Hgen; done].
  destruct (do_reports_spec cs _ (wf_New h0)) as (w & Hrun & Hw & Hlog).
  exists w. split; [done|]. destruct (Hlog p) as (_ & _ & He & Hg).
  assert (∀ k, stored (spb (NewStoredPeerBehaviour h0)) k p = None) as Hnew.
  { intros []; unfold stored; simpl; apply lookup_empty. }
  split; intros Hnone.
  - assert (stored (spb w) KError p = None) as Hs by (apply He; by split).
    split; [done|]. by apply (Hgen w KError).
  - assert (stored (spb w) KGood p = None) as Hs by (apply Hg; by split).
    split; [done|]. by apply (Hgen w KGood).
Qed.

(** C7: Errored and Behaved return (they neither panic nor wait) for every
    peer identity and every reason, on the new struct and in every state
    reached from it, whether or not the identity was seen before, and the
    reason is appended to the peer's log. *)
Theorem reports_never_fail (p : ID) (e : ErrorPeerBehaviour) (g : GoodPeerBehaviour) :
  (∀ w, wf w ->
     (∃ w', Errored p e w = Returns tt w' ∧ wf w' ∧
            log KError w' p = log KError w p ++ [e]) ∧
     (∃ w', Behaved p g w = Returns tt w' ∧ wf w' ∧
            log KGood w' p = log KGood w p ++ [g])) ∧
  (∀ h0, wf (NewStoredPeerBehaviour h0) ∧
     (∃ w', Errored p e (NewStoredPeerBehaviour h0) = Returns tt w' ∧
            log KError w' p = [e]) ∧
     (∃ w', Behaved p g (NewStoredPeerBehaviour h0) = Returns tt w' ∧
            log KGood w' p = [g])) ∧
  (∀ h0 cs, ∃ w, do_reports cs (NewStoredPeerBehaviour h0) = Returns tt w ∧ wf w).
Proof.
  assert (Hgen : ∀ w k r, wf w ->
    ∃ w', report k p r w = Returns tt w' ∧ wf w' ∧ log k w' p = log k w p ++ [r]).
  { intros w k r Hw. destruct (report_spec k p r w Hw) as (w' & ? & ? & ? & _).
    by exists w'. }
  split; [|split].
  - intros w Hw. split; [exact (Hgen w KError e Hw)|exact (Hgen w KGood g Hw)].
  - intros h0. split; [apply wf_New|].
    split.
    + destruct (Hgen _ KError e (wf_New h0)) as (w' & ? & _ & Hl).
      exists w'. split; [done|]. by rewrite Hl, log_New.
    + destruct (Hgen _ KGood g (wf_New h0)) as (w' & ? & _ & Hl).
      exists w'. split; [done|]. by rewrite Hl, log_New.
  - intros h0 cs. destruct (do_reports_spec cs _ (wf_New h0)) as (w & ? & ? & _).
    by exists w.
Qed.

(** C10: GetErrorBehaviours and GetGoodBehaviours only read the struct:
    after a call, for any peer, both maps (and the mutex) are what they
    were, so no key has been made, and every array of the memory is what it
    was; after any sequence of getter calls, each getter returns for each
    peer what it would have returned before. *)
Theorem getters_only_read (w : world) (p : ID) (cs : list get_call) :
  wf w ->
  (∃ s w', GetErrorBehaviours p w = Returns s w' ∧
     spb w' = spb w ∧ eb (spb w') = eb (spb w) ∧ gb (spb w') = gb (spb w) ∧
     heap w ⊆ heap w') ∧
  (∃ s w', GetGoodBehaviours p w = Returns s w' ∧
     spb w' = spb w ∧ eb (spb w') = eb (spb w) ∧ gb (spb w') = gb (spb w) ∧
     heap w ⊆ heap w') ∧
  (∃ w', do_gets cs w = Returns tt w' ∧
     spb w' = spb w ∧ heap w ⊆ heap w' ∧
     ∀ q, returned_elems (GetErrorBehaviours q w') = returned_elems (GetErrorBehaviours q w) ∧
          returned_elems (GetGoodBehaviours q w') = returned_elems (GetGoodBehaviours q w)).
Proof.
  intros Hw.
  assert (Hgen : ∀ k, ∃ s w', get k p w = Returns s w' ∧
     spb w' = spb w ∧ eb (spb w') = eb (spb w) ∧ gb (spb w') = gb (spb w) ∧
     heap w ⊆ heap w').
  { intros k. destruct (get_frame k p w Hw) as (s & w' & Hget & _).
    destruct (get_keeps k p w s w' Hw Hget) as (Hspb & Hsub & _).
    exists s, w'. rewrite Hspb. done. }
  split; [exact (Hgen KError)|]. split; [exact (Hgen KGood)|].
  destruct (do_gets_keeps cs w Hw) as (w' & Hrun & Hspb & Hsub & Hw' & Hlog).
  exists w'. split; [done|]. split; [done|]. split; [done|]. intros q.
  rewrite !GetErrorBehaviours_get, !GetGoodBehaviours_get.
  rewrite !returned_elems_get by done. by rewrite !Hlog.
Qed.

(** ** Further properties of the recording implementation *)

(** The peer and the log a report is about. *)
Definition target (c : report_call) : kind * ID :=
  match c with
  | CallErrored p _ => (KError, p)
  | CallBehaved p _ => (KGood, p)
  end.

(** X5: on a struct whose map is nil (one not made by
    NewStoredPeerBehaviour), Errored (Behaved) panics with "assignment to
    entry in nil map", for every peer and reason, while GetErrorBehaviours
    (GetGoodBehaviours) returns an empty slice that is not nil. *)
Theorem nil_map_report_panics (w : world) (p : ID)
    (e : ErrorPeerBehaviour) (g : GoodPeerBehaviour) :
  mtx (spb w) = unlocked ->
  (eb (spb w) = None ->
     Errored p e w = Panics "assignment to entry in nil map" ∧
     returns_empty (GetErrorBehaviours p w)) ∧
  (gb (spb w) = None ->
     Behaved p g w = Panics "assignment to entry in nil map" ∧
     returns_empty (GetGoodBehaviours p w)).
Proof.
  destruct w as [h [ebm gbm m]]. simpl. intros ->.
  split; intros ->; (split; [reflexivity|]).
  - eexists _, _. split; [reflexivity|]. simpl. split; [by eexists|].
    split; [done|]. unfold slice_elems. simpl. by rewrite lookup_insert_eq.
  - eexists _, _. split; [reflexivity|]. simpl. split; [by eexists|].
    split; [done|]. unfold slice_elems. simpl. by rewrite lookup_insert_eq.
Qed.

(** X6: the logs only grow.  In every state, after any further reports,
    GetErrorBehaviours(p) returns what it returned before followed by the
    reasons of the new Errored reports about p, in order (and so for
    GetGoodBehaviours); a key the map has is still there. *)
Theorem reports_extend_logs (w : world) (cs : list report_call) (p : ID) :
  wf w ->
  ∃ w', do_reports cs w = Returns tt w' ∧
    (∃ l, returned_elems (GetErrorBehaviours p w) = Some l ∧
          returned_elems (GetErrorBehaviours p w') = Some (l ++ errors_of p cs)) ∧
    (∃ l, returned_elems (GetGoodBehaviours p w) = Some l ∧
          returned_elems (GetGoodBehaviours p w') = Some (l ++ goods_of p cs)) ∧
    (is_Some (stored (spb w) KError p) -> is_Some (stored (spb w') KError p)) ∧
    (is_Some (stored (spb w) KGood p) -> is_Some (stored (spb w') KGood p)).
Proof.
  intros Hw. destruct (do_reports_spec cs w Hw) as (w' & Hrun & Hw' & Hlog).
  exists w'. split; [done|]. destruct (Hlog p) as (He & Hg & Hse & Hsg).
  rewrite !GetErrorBehaviours_get, !GetGoodBehaviours_get.
  rewrite !returned_elems_get by done.
  split; [exists (log KError w p); by rewrite He|].
  split; [exists (log KGood w p); by rewrite Hg|].
  split; intros [s Hs]; apply not_eq_None_Some; intros Hnone.
  - apply Hse in Hnone as [Hnone _]. by rewrite Hs in Hnone.
  - apply Hsg in Hnone as [Hnone _]. by rewrite Hs in Hnone.
Qed.

(** X7: after any reports on a new struct, the error map has a key for a
    peer exactly when an Errored report was made about it (and the good map
    when a Behaved report was), and no stored slice is empty: its length is
    the number of those reports, at least 1, and at most its capacity. *)
Theorem keys_are_reported_peers (h0 : gmap addr (list Z))
    (cs : list report_call) (p : ID) :
  ∃ w, do_reports cs (NewStoredPeerBehaviour h0) = Returns tt w ∧
    (is_Some (stored (spb w) KError p) ↔ errors_of p cs ≠ []) ∧
    (is_Some (stored (spb w) KGood p) ↔ goods_of p cs ≠ []) ∧
    (∀ s, stored (spb w) KError p = Some s ->
       len s = length (errors_of p cs) ∧ 1 ≤ len s ∧ len s ≤ cap s) ∧
    (∀ s, stored (spb w) KGood p = Some s ->
       len s = length (goods_of p cs) ∧ 1 ≤ len s ∧ len s ≤ cap s).
Proof.
  destruct (do_reports_spec cs _ (wf_New h0)) as (w & Hrun & Hw & Hlog).
  exists w. split; [done|]. destruct (Hlog p) as (He & Hg & Hse & Hsg).
  rewrite log_New in He, Hg. simpl in He, Hg.
  assert (Hnew : ∀ k, stored (spb (NewStoredPeerBehaviour h0)) k p = None).
  { intros []; unfold stored; simpl; apply lookup_empty. }
  assert (Hkey : ∀ k (l : list Z),
    (stored (spb w) k p = None ↔ stored (spb (NewStoredPeerBehaviour h0)) k p = None ∧ l = []) ->
    (is_Some (stored (spb w) k p) ↔ l ≠ [])).
  { intros k l Hiff. rewrite Hnew in Hiff. rewrite <- not_eq_None_Some. 
    split; intros Hne Habs; apply Hne; apply Hiff; done. }
  assert (Hlen : ∀ k (l : list Z) s,
    log k w p = l -> (is_Some (stored (spb w) k p) ↔ l ≠ []) ->
    stored (spb w) k p = Some s -> len s = length l ∧ 1 ≤ len s ∧ len s ≤ cap s).
  { intros k l s Hl Hiff Hs.
    pose proof (log_length w k p s Hw Hs) as Hlen. rewrite Hl in Hlen.
    destruct Hw as (_ & _ & _ & Hok & _).
    destruct (slice_ok_inv _ _ (Hok _ _ _ Hs)) as (a & arr & _ & _ & _ & Hcap).
    assert (l ≠ []) as Hne by (apply Hiff; by eexists).
    split; [done|]. split; [|done]. rewrite <- Hlen.
    destruct l; [done|simpl; lia]. }
  pose proof (Hkey KError _ Hse) as HkE. pose proof (Hkey KGood _ Hsg) as HkG.
  split; [done|]. split; [done|].
  split; intros s Hs; [by apply (Hlen KError)|by apply (Hlen KGood)].
Qed.

Lemma reports_then_get k p cs w :
  wf w ->
  returned_elems ((do_reports cs;; get k p) w) =
    Some (log k w p ++
          match k with KError => errors_of p cs | KGood => goods_of p cs end).
Proof.
  intros Hw. destruct (do_reports_spec cs w Hw) as (w' & Hrun & Hw' & Hlog).
  unfold bind. rewrite Hrun. rewrite returned_elems_get by done.
  destruct (Hlog p) as (He & Hg & _). by destruct k; rewrite ?He, ?Hg.
Qed.

Lemma get_then_append k p v w :
  wf w ->
  ∃ s w', get k p w = Returns s w' ∧ is_Some (ptr s) ∧
    len s = length (log k w p) ∧ cap s = len s ∧
    ∃ s2 w2, append s v w' = Returns s2 w2 ∧ ptr s2 ≠ ptr s ∧
      slice_elems (heap w2) s = Some (log k w p) ∧
      slice_elems (heap w2) s2 = Some (log k w p ++ [v]).
Proof.
  intros Hw. rewrite get_spec by done.
  set (a := fresh (dom (heap w))). set (l := log k w p).
  eexists _, _. split; [reflexivity|]. simpl. split; [by eexists|].
  split; [done|]. split; [done|].
  unfold append. simpl. rewrite decide_False by lia.
  unfold slice_elems. simpl. rewrite lookup_insert_eq.
  rewrite decide_True by done. rewrite firstn_all.
  unfold bind, alloc, ret. simpl.
  set (a2 := fresh (dom (<[a := l]> (heap w)))).
  assert (a2 ≠ a) as Hne.
  { intros E. pose proof (is_fresh (dom (<[a := l]> (heap w)))) as Hfr.
    fold a2 in Hfr. rewrite E in Hfr. apply Hfr.
    rewrite dom_insert_L. set_solver. }
  eexists _, _. split; [reflexivity|]. simpl. split; [congruence|].
  rewrite lookup_insert_ne by done. rewrite !lookup_insert_eq.
  rewrite decide_True by done. rewrite firstn_all. split; [done|].
  rewrite decide_True by (rewrite length_app; simpl; lia).
  f_equal. rewrite (cons_middle v), app_assoc.
  rewrite take_app_length'; [done|]. rewrite length_app. simpl. lia.
Qed.

(** X8: the slice a getter returns has no room to spare: it is not nil, its
    length and its capacity are the number of reasons recorded for the
    peer.  So an append to it by the caller moves to another array and
    leaves the elements of the slice returned as they were. *)
Theorem getter_result_has_no_spare_room (w : world) (p : ID) (v : Z) :
  wf w ->
  (∃ s w', GetErrorBehaviours p w = Returns s w' ∧ is_Some (ptr s) ∧
     len s = length (log KError w p) ∧ cap s = len s ∧
     ∃ s2 w2, append s v w' = Returns s2 w2 ∧ ptr s2 ≠ ptr s ∧
       slice_elems (heap w2) s = Some (log KError w p) ∧
       slice_elems (heap w2) s2 = Some (log KError w p ++ [v])) ∧
  (∃ s w', GetGoodBehaviours p w = Returns s w' ∧ is_Some (ptr s) ∧
     len s = length (log KGood w p) ∧ cap s = len s ∧
     ∃ s2 w2, append s v w' = Returns s2 w2 ∧ ptr s2 ≠ ptr s ∧
       slice_elems (heap w2) s = Some (log KGood w p) ∧
       slice_elems (heap w2) s2 = Some (log KGood w p ++ [v])).
Proof.
  intros Hw.
  split; [exact (get_then_append KError p v w Hw)|exact (get_then_append KGood p v w Hw)].
Qed.

Lemma mutate_frame ms : ∀ s w s' w',
  slice_ok (heap w) s ->
  mutate ms s w = Returns s' w' ->
  ∀ b, b ∈ dom (heap w) -> Some b ≠ ptr s -> heap w' !! b = heap w !! b.
Proof.
  induction ms as [|m ms IH]; intros s w s' w' Hok Hrun b Hb Hne.
  - by injection Hrun as <- <-.
  - simpl in Hrun. unfold bind in Hrun.
    destruct (mutate1_spec m s w Hok)
      as [E|(s1 & w1 & E & _ & Hok1 & Hptr & Hfrm & _)]; rewrite E in Hrun; [done|].
    rewrite (IH s1 w1 s' w' Hok1 Hrun b).
    + by apply Hfrm.
    + apply elem_of_dom. rewrite Hfrm by done. by apply elem_of_dom.
    + destruct Hptr as [->| ->]; [done|]. intros [= ->]. by apply is_fresh in Hb.
Qed.

(** X9: two slices returned by two getter calls share no elements:
    whatever assignments and appends the caller makes through one of them,
    the elements of the other are what they were. *)
Theorem returned_slices_do_not_alias (w : world) (c1 c2 : get_call)
    (ms : list mutation) :
  wf w ->
  ∃ s1 w1 s2 w2,
    do_get c1 w = Returns s1 w1 ∧ do_get c2 w1 = Returns s2 w2 ∧
    (∀ s' w3, mutate ms s1 w2 = Returns s' w3 ->
       slice_elems (heap w3) s2 = slice_elems (heap w2) s2) ∧
    (∀ s' w3, mutate ms s2 w2 = Returns s' w3 ->
       slice_elems (heap w3) s1 = slice_elems (heap w2) s1).
Proof.
  intros Hw.
  assert (Hk : ∀ c, ∃ k p, do_get c = get k p).
  { intros [p|p]; [exists KError, p|exists KGood, p]; reflexivity. }
  destruct (Hk c1) as (k1 & p1 & ->). destruct (Hk c2) as (k2 & p2 & ->).
  destruct (get_kept k1 p1 w [] Hw (Forall_nil_2 _))
    as (s1 & w1 & Hget1 & Hw1 & _ & _ & Hkept1).
  destruct (get_kept k2 p2 w1 [s1] Hw1 Hkept1)
    as (s2 & w2 & Hget2 & Hw2 & _ & _ & Hkept2).
  apply Forall_cons in Hkept2 as [[Hok2 _] Hkept2].
  apply Forall_cons in Hkept2 as [[Hok1 _] _].
  apply Forall_cons in Hkept1 as [[Hok1' _] _].
  destruct (get_frame k2 p2 w1 Hw1) as (s2' & w2' & Hget2' & _ & Hp2 & _).
  rewrite Hget2 in Hget2'. injection Hget2' as <- <-.
  destruct (slice_ok_inv _ _ Hok1') as (a1 & arr1 & Hp1 & Ha1 & _).
  destruct (slice_ok_inv _ _ Hok2) as (a2 & arr2 & Hp2' & Ha2 & _).
  destruct (slice_ok_inv _ _ Hok1) as (a1' & arr1' & Hp1' & Ha1' & _).
  assert (a1 ≠ a2) as Hne.
  { rewrite Hp2 in Hp2'. injection Hp2' as <-. intros E.
    rewrite E, fresh_addr_unused in Ha1. done. }
  exists s1, w1, s2, w2. split; [done|]. split; [done|]. split.
  - intros s' w3 Hmut. apply (slice_elems_agree _ _ _ a2 Hp2').
    apply (mutate_frame ms s1 w2 s' w3 Hok1 Hmut).
    + by apply elem_of_dom.
    + rewrite Hp1. congruence.
  - intros s' w3 Hmut. apply (slice_elems_agree _ _ _ a1 Hp1).
    apply (mutate_frame ms s2 w2 s' w3 Hok2 Hmut).
    + apply elem_of_dom. rewrite Hp1 in Hp1'. injection Hp1' as <-. by eexists.
    + rewrite Hp2'. congruence.
Qed.



(** X11: two reports that are about different peers, or one Errored and
    the other Behaved, can be made in either order: every getter returns
    the same afterwards.  Two Errored reports about one peer with different
    reasons cannot: the order of the reasons returned is the order of the
    reports. *)
Theorem independent_reports_commute (w : world) (c1 c2 : report_call) (p : ID) :
  wf w ->
  (target c1 ≠ target c2 ->
     returned_elems ((do_reports [c1; c2];; GetErrorBehaviours p) w) =
       returned_elems ((do_reports [c2; c1];; GetErrorBehaviours p) w) ∧
     returned_elems ((do_reports [c1; c2];; GetGoodBehaviours p) w) =
       returned_elems ((do_reports [c2; c1];; GetGoodBehaviours p) w)) ∧
  (∀ r1 r2 : ErrorPeerBehaviour, r1 ≠ r2 ->
     returned_elems
       ((do_reports [CallErrored p r1; CallErrored p r2];; GetErrorBehaviours p) w) ≠
     returned_elems
       ((do_reports [CallErrored p r2; CallErrored p r1];; GetErrorBehaviours p) w)).
Proof.
  intros Hw. split.
  - intros Hne.
    pose proof (reports_then_get KError p [c1; c2] w Hw) as H12e.
    pose proof (reports_then_get KError p [c2; c1] w Hw) as H21e.
    pose proof (reports_then_get KGood p [c1; c2] w Hw) as H12g.
    pose proof (reports_then_get KGood p [c2; c1] w Hw) as H21g.
    split.
    + etrans; [exact H12e|]. etrans; [|symmetry; exact H21e]. do 2 f_equal.
      destruct c1 as [q1 r1|q1 r1], c2 as [q2 r2|q2 r2]; simpl in *;
        repeat case_decide; try done; subst; done.
    + etrans; [exact H12g|]. etrans; [|symmetry; exact H21g]. do 2 f_equal.
      destruct c1 as [q1 r1|q1 r1], c2 as [q2 r2|q2 r2]; simpl in *;
        repeat case_decide; try done; subst; done.
  - intros r1 r2 Hne Heq.
    pose proof (reports_then_get KError p [CallErrored p r1; CallErrored p r2] w Hw) as H12.
    pose proof (reports_then_get KError p [CallErrored p r2; CallErrored p r1] w Hw) as H21.
    assert (Some (log KError w p ++ errors_of p [CallErrored p r1; CallErrored p r2]) =
            Some (log KError w p ++ errors_of p [CallErrored p r2; CallErrored p r1])) as E.
    { etrans; [symmetry; exact H12|]. etrans; [exact Heq|]. exact H21. }
    injection E as E. apply app_inv_head in E. simpl in E.
    rewrite !decide_True in E by done. by injection E as ->.
Qed.

Lemma report_writes_one_entry k p r w g0 :
  wf w -> field k (spb w) = Some g0 ->
  ∃ s' w', report k p r w = Returns tt w' ∧
    spb w' = with_field k (Some (<[p := s']> g0)) (spb w) ∧
    (∀ b, b ∈ dom (heap w) ->
       (∀ s, stored (spb w) k p = Some s -> ptr s ≠ Some b) ->
       heap w' !! b = heap w !! b).
Proof.
  intros Hw Hf.
  destruct (report_run k p r w g0 Hw Hf)
    as (s' & h' & Hrun & _ & _ & _ & Hfrom & _ & Hfrm).
  eexists s', _. split; [exact Hrun|]. simpl. split; [done|].
  intros b Hb Hnot. apply Hfrm. destruct Hfrom as [->|(s & Hs & ->)].
  - intros [= ->]. by apply is_fresh in Hb.
  - intros E. by apply (Hnot s).
Qed.

(** X12: a report writes one entry of one map.  Errored(p, reason)
    replaces the entry of p in the error map and leaves every other entry
    of it, the whole good map and the mutex as they were; in memory only
    the array of p's stored error slice may change (other arrays that
    existed are what they were).  Behaved does the same with the good
    map. *)
Theorem report_writes_its_entry_only (w : world) (p : ID)
    (e : ErrorPeerBehaviour) (g : GoodPeerBehaviour) :
  wf w ->
  (∃ ebm s' w', eb (spb w) = Some ebm ∧ Errored p e w = Returns tt w' ∧
     eb (spb w') = Some (<[p := s']> ebm) ∧
     gb (spb w') = gb (spb w) ∧ mtx (spb w') = mtx (spb w) ∧
     (∀ b, b ∈ dom (heap w) ->
        (∀ s, stored (spb w) KError p = Some s -> ptr s ≠ Some b) ->
        heap w' !! b = heap w !! b)) ∧
  (∃ gbm s' w', gb (spb w) = Some gbm ∧ Behaved p g w = Returns tt w' ∧
     gb (spb w') = Some (<[p := s']> gbm) ∧
     eb (spb w') = eb (spb w) ∧ mtx (spb w') = mtx (spb w) ∧
     (∀ b, b ∈ dom (heap w) ->
        (∀ s, stored (spb w) KGood p = Some s -> ptr s ≠ Some b) ->
        heap w' !! b = heap w !! b)).
Proof.
  intros Hw. destruct (Hw) as (_ & [ebm He] & [gbm Hg] & _). split.
  - destruct (report_writes_one_entry KError p e w ebm Hw He)
      as (s' & w' & Hrun & Hspb & Hfrm).
    exists ebm, s', w'. rewrite Hspb. done.
  - destruct (report_writes_one_entry KGood p g w gbm Hw Hg)
      as (s' & w' & Hrun & Hspb & Hfrm).
    exists gbm, s', w'. rewrite Hspb. done.
Qed.

End WithID.

Arguments Returns {ID _ _ A} a w.
Arguments Panics {ID _ _ A} msg.
Arguments Blocks {ID _ _ A}.

(** ** The theorems at concrete inputs *)

(** Peer identities are strings; a reallocating [append] adds the old
    capacity as extra room. *)
Definition sample_growslice (oldcap needed : nat) : nat := oldcap.

Definition sample_reports : list (report_call (ID := string)) :=
  [CallErrored "p1" ErrorPeerBehaviourMessageOutofOrder;
   CallBehaved "p1" GoodPeerBehaviourVote;
   CallErrored "p1" ErrorPeerBehaviourBadMessage].

(** The memory after the three reports on a new struct. *)
Definition sample_world : world (ID := string) :=
  match do_reports sample_growslice sample_reports (NewStoredPeerBehaviour ∅) with
  | Returns _ w => w
  | _ => NewStoredPeerBehaviour ∅
  end.

Lemma sample_world_wf : wf sample_world.
Proof. apply (bool_decide_unpack _). vm_compute. reflexivity. Qed.

Example sample_world_logs :
  log KError sample_world "p1" = [2; 1]%Z ∧
  log KGood sample_world "p1" = [100]%Z ∧
  log KError sample_world "p2" = [] ∧
  stored (spb sample_world) KError "p1" = Some (Slice (Some 3%positive) 2 3).
Proof. repeat split; vm_compute; reflexivity. Qed.

(** The struct made without NewStoredPeerBehaviour has nil maps: reading
    is fine, a report panics. *)
Example zero_value_struct :
  let zero := World (ID := string) ∅ (Stored None None unlocked) in
  returned_elems (GetErrorBehaviours "p1" zero) = Some [] ∧
  Errored sample_growslice "p1" ErrorPeerBehaviourBadMessage zero =
    Panics "assignment to entry in nil map".
Proof. split; vm_compute; reflexivity. Qed.

(** A caller that changes the slice it was returned between two reports. *)
Definition sample_actions : list (action (ID := string)) :=
  [Report (CallErrored "p1" ErrorPeerBehaviourMessageOutofOrder);
   Get (CallGetErrorBehaviours "p1");
   Mutate 0 (SetIndex 0 77%Z);
   Report (CallErrored "p1" ErrorPeerBehaviourBadMessage);
   Mutate 0 (AppendTo 5%Z);
   Get (CallGetErrorBehaviours "p1")].

Lemma getters_return_copies_witness :
  wf sample_world ∧
  (∃ s w1 s' w2,
     GetErrorBehaviours "p1" sample_world = Returns s w1 ∧
     mutate sample_growslice [SetIndex 0 77%Z; AppendTo 5%Z] s w1 = Returns s' w2 ∧
     slice_elems (heap w2) s' = Some [77; 1; 5]%Z ∧
     returned_elems (GetErrorBehaviours "p1" w2) = Some [2; 1]%Z) ∧
  (∃ kept w,
     run_actions sample_growslice sample_actions [] (NewStoredPeerBehaviour ∅)
       = Returns kept w ∧
     slice_elems (heap w) <$> kept = [Some [2; 1]; Some [77; 5]; Some [77]; Some [77]]%Z ∧
     returned_elems (GetErrorBehaviours "p1" w) = Some [2; 1]%Z).
Proof.
  split; [exact sample_world_wf|].
  destruct (getters_return_copies sample_growslice "p1") as [Hone Hany]. split.
  - destruct (Hone sample_world [SetIndex 0 77%Z; AppendTo 5%Z] sample_world_wf)
      as [(s & w1 & Hget & Hel & Hmut) _].
    exists s, w1.
    assert (∃ s' w2,
      mutate sample_growslice [SetIndex 0 77%Z; AppendTo 5%Z] s w1 = Returns s' w2 ∧
      slice_elems (heap w2) s' = Some [77; 1; 5]%Z) as (s' & w2 & Hrun & Hs').
    { vm_compute in Hget. injection Hget as <- <-.
      eexists _, _. split; vm_compute; reflexivity. }
    exists s', w2. split; [exact Hget|]. split; [exact Hrun|]. split; [exact Hs'|].
    destruct (Hmut s' w2 Hrun) as (Hret & _). rewrite Hret.
    vm_compute. reflexivity.
  - destruct (Hany ∅ sample_actions) as [Hpanic|(kept & w & Hrun & Herr & _)].
    + vm_compute in Hpanic. discriminate Hpanic.
    + exists kept, w. split; [exact Hrun|]. split.
      * vm_compute in Hrun. injection Hrun as <- <-. vm_compute. reflexivity.
      * rewrite Herr. vm_compute. reflexivity.
Defined.

Lemma getters_only_read_witness :
  wf sample_world ∧
  ∃ w',
    do_gets [CallGetErrorBehaviours "p2"; CallGetGoodBehaviours "p1"] sample_world
      = Returns tt w' ∧
    spb w' = spb sample_world ∧
    stored (spb w') KError "p2" = None ∧
    returned_elems (GetErrorBehaviours "p1" w') = Some [2; 1]%Z.
Proof.
  split; [exact sample_world_wf|].
  destruct (getters_only_read sample_world "p2"
              [CallGetErrorBehaviours "p2"; CallGetGoodBehaviours "p1"] sample_world_wf)
    as (_ & _ & w' & Hrun & Hspb & _ & Hsame).
  exists w'. split; [exact Hrun|]. split; [exact Hspb|]. split.
  - rewrite Hspb. vm_compute. reflexivity.
  - destruct (Hsame "p1") as [-> _]. vm_compute. reflexivity.
Defined.

Lemma unreported_peer_reads_empty_witness :
  errors_of "p2" sample_reports = [] ∧
  ∃ w, do_reports sample_growslice sample_reports (NewStoredPeerBehaviour ∅)
         = Returns tt w ∧
       stored (spb w) KError "p2" = None ∧
       returns_empty (GetErrorBehaviours "p2" w).
Proof.
  split; [reflexivity|].
  destruct (unreported_peer_reads_empty sample_growslice ∅ sample_reports "p2")
    as [(w & Hrun & Herr & _) _].
  exists w. split; [exact Hrun|]. apply Herr. reflexivity.
Defined.

Lemma reports_never_fail_witness :
  wf sample_world ∧
  ∃ w', Errored sample_growslice "p9" ErrorPeerBehaviourUnknown sample_world
          = Returns tt w' ∧
        log KError w' "p9" = [ErrorPeerBehaviourUnknown].
Proof.
  split; [exact sample_world_wf|].
  destruct (reports_never_fail sample_growslice "p9" ErrorPeerBehaviourUnknown
              GoodPeerBehaviourVote) as (Hall & _).
  destruct (Hall sample_world sample_world_wf) as [(w' & Hrun & _ & Hlog) _].
  exists w'. split; [exact Hrun|]. rewrite Hlog. vm_compute. reflexivity.
Defined.

(** The struct at its zero value: both maps nil. *)
Definition zero_world : world (ID := string) := World ∅ (Stored None None unlocked).

Lemma nil_map_report_panics_witness :
  mtx (spb zero_world) = unlocked ∧
  eb (spb zero_world) = None ∧
  Errored sample_growslice "p1" ErrorPeerBehaviourBadMessage zero_world =
    Panics "assignment to entry in nil map" ∧
  returns_empty (GetErrorBehaviours "p1" zero_world).
Proof.
  split; [reflexivity|]. split; [reflexivity|].
  destruct (nil_map_report_panics sample_growslice zero_world "p1"
              ErrorPeerBehaviourBadMessage GoodPeerBehaviourVote eq_refl) as [Herr _].
  exact (Herr eq_refl).
Defined.

Lemma reports_extend_logs_witness :
  wf sample_world ∧
  ∃ w', do_reports sample_growslice
          [CallErrored "p1" ErrorPeerBehaviourUnknown; CallBehaved "p2" GoodPeerBehaviourBlockPart]
          sample_world = Returns tt w' ∧
        returned_elems (GetErrorBehaviours "p1" sample_world) = Some [2; 1]%Z ∧
        returned_elems (GetErrorBehaviours "p1" w') = Some [2; 1; 0]%Z.
Proof.
  split; [exact sample_world_wf|].
  destruct (reports_extend_logs sample_growslice sample_world
              [CallErrored "p1" ErrorPeerBehaviourUnknown;
               CallBehaved "p2" GoodPeerBehaviourBlockPart] "p1" sample_world_wf)
    as (w' & Hrun & (l & Hbefore & Hafter) & _).
  exists w'. split; [exact Hrun|].
  assert (l = [2; 1]%Z) as ->.
  { vm_compute in Hbefore. by injection Hbefore as <-. }
  split; [exact Hbefore|]. rewrite Hafter. reflexivity.
Defined.

Lemma getter_result_has_no_spare_room_witness :
  wf sample_world ∧
  ∃ s w', GetErrorBehaviours "p1" sample_world = Returns s w' ∧
          len s = 2 ∧ cap s = 2 ∧
          ∃ s2 w2, append sample_growslice s 7%Z w' = Returns s2 w2 ∧
                   ptr s2 ≠ ptr s ∧
                   slice_elems (heap w2) s = Some [2; 1]%Z ∧
                   slice_elems (heap w2) s2 = Some [2; 1; 7]%Z.
Proof.
  split; [exact sample_world_wf|].
  destruct (getter_result_has_no_spare_room sample_growslice sample_world "p1" 7%Z
              sample_world_wf)
    as [(s & w' & Hget & _ & Hlen & Hcap & s2 & w2 & Happ & Hne & Hs & Hs2) _].
  exists s, w'. split; [exact Hget|].
  assert (log KError sample_world "p1" = [2; 1]%Z) as Hlog by (vm_compute; reflexivity).
  rewrite Hlog in *. split; [exact Hlen|]. split; [by rewrite Hcap|].
  exists s2, w2. done.
Defined.

Lemma returned_slices_do_not_alias_witness :
  wf sample_world ∧
  ∃ s1 w1 s2 w2 s' w3,
    GetErrorBehaviours "p1" sample_world = Returns s1 w1 ∧
    GetErrorBehaviours "p1" w1 = Returns s2 w2 ∧
    mutate sample_growslice [SetIndex 1 9%Z] s1 w2 = Returns s' w3 ∧
    slice_elems (heap w3) s1 = Some [2; 9]%Z ∧
    slice_elems (heap w3) s2 = Some [2; 1]%Z.
Proof.
  split; [exact sample_world_wf|].
  destruct (returned_slices_do_not_alias sample_growslice sample_world
              (CallGetErrorBehaviours "p1") (CallGetErrorBehaviours "p1")
              [SetIndex 1 9%Z] sample_world_wf)
    as (s1 & w1 & s2 & w2 & Hget1 & Hget2 & Hkeep & _).
  simpl in Hget1, Hget2.
  assert (∃ s' w3, mutate sample_growslice [SetIndex 1 9%Z] s1 w2 = Returns s' w3 ∧
            slice_elems (heap w3) s1 = Some [2; 9]%Z ∧
            slice_elems (heap w2) s2 = Some [2; 1]%Z) as (s' & w3 & Hmut & Hs1 & Hs2).
  { vm_compute in Hget1. injection Hget1 as <- <-.
    vm_compute in Hget2. injection Hget2 as <- <-.
    eexists _, _. split; [vm_compute; reflexivity|]. split; vm_compute; reflexivity. }
  exists s1, w1, s2, w2, s', w3. split; [exact Hget1|]. split; [exact Hget2|].
  split; [exact Hmut|]. split; [exact Hs1|].
  rewrite (Hkeep s' w3 Hmut). exact Hs2.
Defined.


Lemma independent_reports_commute_witness :
  wf sample_world ∧
  target (CallErrored "p1" ErrorPeerBehaviourUnknown)
    ≠ target (CallBehaved "p1" GoodPeerBehaviourBlockPart) ∧
  returned_elems
    ((bind (do_reports sample_growslice
              [CallErrored "p1" ErrorPeerBehaviourUnknown;
               CallBehaved "p1" GoodPeerBehaviourBlockPart])
           (fun _ => GetErrorBehaviours "p1")) sample_world) =
  returned_elems
    ((bind (do_reports sample_growslice
              [CallBehaved "p1" GoodPeerBehaviourBlockPart;
               CallErrored "p1" ErrorPeerBehaviourUnknown])
           (fun _ => GetErrorBehaviours "p1")) sample_world).
Proof.
  split; [exact sample_world_wf|].
  assert (target (CallErrored "p1" ErrorPeerBehaviourUnknown)
            ≠ target (CallBehaved "p1" GoodPeerBehaviourBlockPart)) as Hne
    by discriminate.
  split; [exact Hne|].
  destruct (independent_reports_commute sample_growslice sample_world
              (CallErrored "p1" ErrorPeerBehaviourUnknown)
              (CallBehaved "p1" GoodPeerBehaviourBlockPart) "p1" sample_world_wf)
    as [Hcomm _].
  exact (proj1 (Hcomm Hne)).
Defined.

Lemma report_writes_its_entry_only_witness :
  wf sample_world ∧
  ∃ w', Errored sample_growslice "p2" ErrorPeerBehaviourBadMessage sample_world
          = Returns tt w' ∧
        gb (spb w') = gb (spb sample_world) ∧
        stored (spb w') KError "p1" = stored (spb sample_world) KError "p1" ∧
        is_Some (stored (spb w') KError "p2").
Proof.
  split; [exact sample_world_wf|].
  destruct (report_writes_its_entry_only sample_growslice sample_world "p2"
              ErrorPeerBehaviourBadMessage GoodPeerBehaviourVote sample_world_wf)
    as [(ebm & s' & w' & He & Hrun & He' & Hg' & _) _].
  exists w'. split; [exact Hrun|]. split; [exact Hg'|].
  unfold stored. simpl. rewrite He', He. split.
  - apply lookup_insert_ne. discriminate.
  - rewrite lookup_insert_eq. by eexists.
Defined.

End Recording.
